(** * Verification of the qsharp VS Code webview

    Shallow embedding of [vscode/src/webview/webview.tsx]:

    - the histogram webview message handler ([onMessage]) with its
      module-level variables [histogramData], [shotCount], [showEstimates];
    - the Bloch-sphere view: the easing curves, [hslToRgb], the
      [BlochRenderer] animation queue ([queueGate] and its [processQueue]
      closure, [reset]) and the [BlochSphere] component handlers
      ([rotate], [reset]).

    Conventions.  Values received in a message are JavaScript values
    ([JsVal]); the numbers among them are IEEE doubles ([float]).  The
    numbers of the Bloch-sphere view (clock readings, angles, eased
    progress, fade weights) are idealised as real numbers ([R]); rounding
    of [Math.cos] and [Math.sin] is not modelled.  Objects that the code
    shares and mutates (path keyframes, trail markers) live in stores
    indexed by object identity. *)

From Stdlib Require Import Reals Lra Lia Floats ZArith String Ascii List.
From stdpp Require Import base option list gmap.
Import ListNotations.

Set Warnings "-register-all".
Local Open Scope string_scope.

(** ** Part I: the histogram webview, [onMessage] *)

Module Webview.

(** JavaScript values as they arrive in [event.data]. *)
Inductive JsVal : Type :=
| JUndefined
| JNull
| JBool (b : bool)
| JNum (f : float)
| JStr (s : string)
| JArr (items : list JsVal)
| JObj (fields : list (string * JsVal)).

(** Property read [v.k] (and [v?.k]) for the three names the handler
    reads, [command], [buckets] and [shotCount]: only a plain object can
    carry them; on [undefined] and [null] the optional chain gives
    [undefined], and primitives and arrays have no such property. *)
Fixpoint lookupField (k : string) (fields : list (string * JsVal)) : JsVal :=
  match fields with
  | [] => JUndefined
  | (k', v) :: rest => if String.eqb k k' then v else lookupField k rest
  end.

Definition getProp (v : JsVal) (k : string) : JsVal :=
  match v with
  | JObj fields => lookupField k fields
  | _ => JUndefined
  end.

(** ToBoolean. *)
Definition truthy (v : JsVal) : bool :=
  match v with
  | JUndefined | JNull => false
  | JBool b => b
  | JNum f => negb (PrimFloat.eqb f 0%float || PrimFloat.is_nan f)
  | JStr s => negb (String.eqb s "")
  | JArr _ | JObj _ => true
  end.

(** [typeof v === "number"]. *)
Definition isNumber (v : JsVal) : bool :=
  match v with JNum _ => true | _ => false end.

(** [v === s] for a string literal [s]. *)
Definition strictEqStr (v : JsVal) (s : string) : bool :=
  match v with JStr s' => String.eqb s' s | _ => false end.

(** SameValueZero, the key equality of [Map].  A message is a tree of
    values, so two object keys are two distinct objects. *)
Definition sameValueZero (a b : JsVal) : bool :=
  match a, b with
  | JUndefined, JUndefined | JNull, JNull => true
  | JBool x, JBool y => Bool.eqb x y
  | JNum x, JNum y =>
      PrimFloat.eqb x y || (PrimFloat.is_nan x && PrimFloat.is_nan y)
  | JStr x, JStr y => String.eqb x y
  | _, _ => false
  end.

(** A [Map] keeps its entries in insertion order; setting an existing key
    replaces the value in place, and a new key [-0] is stored as [+0]. *)
Definition JsMap := list (JsVal * JsVal).

Definition normalizeKey (k : JsVal) : JsVal :=
  match k with
  | JNum f => if PrimFloat.eqb f 0%float then JNum 0%float else k
  | _ => k
  end.

Fixpoint mapSet (k v : JsVal) (m : JsMap) : JsMap :=
  match m with
  | [] => [(normalizeKey k, v)]
  | (k', v') :: rest =>
      if sameValueZero k' k then (k', v) :: rest
      else (k', v') :: mapSet k v rest
  end.

(** One entry handed to the [Map] constructor: it must be an object, and
    its properties [0] and [1] are the key and the value. *)
Definition entryOf (e : JsVal) : option (JsVal * JsVal) :=
  match e with
  | JArr items => Some (nth 0 items JUndefined, nth 1 items JUndefined)
  | JObj fields => Some (lookupField "0" fields, lookupField "1" fields)
  | _ => None
  end.

Fixpoint mapFromEntries (entries : list JsVal) (m : JsMap) : option JsMap :=
  match entries with
  | [] => Some m
  | e :: rest =>
      match entryOf e with
      | Some (k, v) => mapFromEntries rest (mapSet k v m)
      | None => None
      end
  end.

(** [new Map(buckets)] for a truthy [buckets]; [None] is the [TypeError]
    the constructor throws when [buckets] is not iterable or one of its
    elements is not an entry object (a non-empty string iterates over
    strings, which are not objects). *)
Definition newMap (buckets : JsVal) : option JsMap :=
  match buckets with
  | JArr entries => mapFromEntries entries []
  | _ => None
  end.

(** The module-level variables. *)
Record Globals : Type := mkGlobals {
  histogramData : JsMap;
  shotCount : float;
  showEstimates : bool
}.

Definition initialGlobals : Globals :=
  {| histogramData := []; shotCount := 0%float; showEstimates := false |}.

(** What one call of the handler does besides updating the globals. *)
Inductive Console : Type :=
| ConsoleError (text : string) (arg : JsVal)
| ConsoleLog (text : string) (arg : JsVal).

Record Outcome : Type := mkOutcome {
  globals : Globals;
  console : list Console;
  rendered : bool;   (* [render(<App />, document.body)] was called *)
  threw : bool       (* the handler ended by an exception *)
}.

Definition onMessage (g : Globals) (message : JsVal) : Outcome :=
  let command := getProp message "command" in
  if negb (truthy command) then
    mkOutcome g [ConsoleError "Unknown message: " message] false false
  else if strictEqStr command "update" then
    if negb (truthy (getProp message "buckets"))
       || negb (isNumber (getProp message "shotCount")) then
      mkOutcome g [ConsoleError "No buckets in message: " message] false false
    else
      match newMap (getProp message "buckets"), getProp message "shotCount" with
      | Some m, JNum n =>
          mkOutcome {| histogramData := m; shotCount := n;
                       showEstimates := showEstimates g |} [] true false
      | _, _ => mkOutcome g [] false true
      end
  else if strictEqStr command "estimate" then
    mkOutcome {| histogramData := histogramData g; shotCount := shotCount g;
                 showEstimates := true |} [] true false
  else
    mkOutcome g [ConsoleLog "Unknown command: " command] false false.

(** The handler run on a sequence of messages, one event after the other. *)
Definition onMessages (g : Globals) (messages : list JsVal) : Globals :=
  fold_left (fun g m => globals (onMessage g m)) messages g.

(** The messages the handler rejects: no command, a command other than
    [update] and [estimate], an update without buckets or without a
    numeric shot count; and the estimate messages. *)
Definition lacksCommand (message : JsVal) : Prop :=
  getProp message "command" = JUndefined.

Definition unrecognizedCommand (message : JsVal) : Prop :=
  getProp message "command" <> JStr "update" /\
  getProp message "command" <> JStr "estimate".

Definition malformedUpdate (message : JsVal) : Prop :=
  getProp message "command" = JStr "update" /\
  (getProp message "buckets" = JUndefined \/
   isNumber (getProp message "shotCount") = false).

Definition isEstimate (message : JsVal) : Prop :=
  getProp message "command" = JStr "estimate".

(** The view.  [App] returns a fragment with three children; a child is
    [null] when its condition fails.  The histogram gets an empty filter
    and a handler that does nothing. *)
Inductive Element : Type :=
| HistogramElement (data : JsMap) (shots : float) (filter : string)
| BrElement
| EstimatesElement.

Definition App (g : Globals) : list (option Element) :=
  [ if truthy (JNum (shotCount g))
    then Some (HistogramElement (histogramData g) (shotCount g) "")
    else None;
    Some BrElement;
    if showEstimates g then Some EstimatesElement else None ].

(** The update a message carries, if the handler accepts it, and the last
    one of a sequence of messages. *)
Definition acceptedUpdate (message : JsVal) : option (JsMap * float) :=
  if strictEqStr (getProp message "command") "update" then
    match newMap (getProp message "buckets"), getProp message "shotCount" with
    | Some m, JNum n => Some (m, n)
    | _, _ => None
    end
  else None.

Definition lastAccepted (messages : list JsVal) : option (JsMap * float) :=
  last (omap acceptedUpdate messages).

Definition isEstimateB (message : JsVal) : bool :=
  strictEqStr (getProp message "command") "estimate".

End Webview.


(** ** Part II: the Bloch-sphere view *)

Module Bloch.
Local Open Scope list_scope.
Local Open Scope R_scope.

(** *** Easing curves and colours

    These functions compute on doubles in the source and on real numbers
    here.  The two agree on what the properties below state (ranges,
    monotonicity, the values at the end points, completion from 750 ms
    on), but not bit for bit: on doubles [easeInOutSine] is already 1 a
    few ulps below 1, so a gate can complete a fraction of a microsecond
    early, and the truncation in [hslToRgb] can fall on the other side of
    an integer, so a channel can differ by one.  No property is stated
    that depends on such a value. *)

Definition easeInOutSine (x : R) : R := - (cos (PI * x) - 1) / 2.

Definition easeOutSine (x : R) : R := sin ((x * PI) / 2).

Definition hueToRgb (p q t : R) : R :=
  let t := if Rlt_dec t 0 then t + 1 else t in
  let t := if Rgt_dec t 1 then t - 1 else t in
  if Rlt_dec t (1 / 6) then p + (q - p) * 6 * t
  else if Rlt_dec t (1 / 2) then q
  else if Rlt_dec t (2 / 3) then p + (q - p) * (2 / 3 - t) * 6
  else p.

(** ToInt32 of a real number: truncate towards zero, then wrap to the
    signed 32-bit range. *)
Definition truncZ (x : R) : Z :=
  if Rle_dec 0 x then Int_part x else (- Int_part (- x))%Z.

Definition wrap32 (z : Z) : Z := ((z + 2 ^ 31) mod 2 ^ 32 - 2 ^ 31)%Z.

Definition toInt32 (x : R) : Z := wrap32 (truncZ x).

(** [a << n] and [a | b] on numbers. *)
Definition shl32 (a : R) (n : Z) : Z := wrap32 (Z.shiftl (toInt32 a) n).

Definition hslToRgb (h s l : R) : Z :=
  let '(r, g, b) :=
    if Req_dec_T s 0 then (l, l, l)
    else
      let q := if Rlt_dec l (1 / 2) then l * (1 + s) else l + s - l * s in
      let p := 2 * l - q in
      (hueToRgb p q (h + 1 / 3), hueToRgb p q h, hueToRgb p q (h - 1 / 3)) in
  Z.lor (Z.lor (shl32 (Rmin (r * 255) 255) 16) (shl32 (Rmin (g * 255) 255) 8))
        (toInt32 (Rmin (b * 255) 255)).

Definition rotationTimeMs : R := 750.

(** *** The qubit state and the gate matrices

    Modelled from the spec: [Ket0], [vec2], the six gate matrices and
    [mulVec2] are exports of [../src/cplx.js], which is not among the
    sources.  The spec gives the state as a pair of complex amplitudes
    starting at [(1,0)], the matrices entry by entry, and [mulVec2] as the
    standard matrix-vector product.  Vectors are immutable values here, so
    the copy [vec2(v)] of a vector is the vector. *)

Record Cplx : Type := cplx { re : R; im : R }.

Definition cadd (u v : Cplx) : Cplx := cplx (re u + re v) (im u + im v).

Definition cmul (u v : Cplx) : Cplx :=
  cplx (re u * re v - im u * im v) (re u * im v + im u * re v).

Record Vec2 : Type := mkVec2 { amp0 : Cplx; amp1 : Cplx }.

Record Matrix2 : Type := mkMatrix2 { m00 : Cplx; m01 : Cplx; m10 : Cplx; m11 : Cplx }.

Definition Ket0 : Vec2 := mkVec2 (cplx 1 0) (cplx 0 0).

Definition vec2 (v : Vec2) : Vec2 := v.

Definition mulVec2 (m : Matrix2) (v : Vec2) : Vec2 :=
  mkVec2 (cadd (cmul (m00 m) (amp0 v)) (cmul (m01 m) (amp1 v)))
         (cadd (cmul (m10 m) (amp0 v)) (cmul (m11 m) (amp1 v))).

Definition PauliX : Matrix2 :=
  mkMatrix2 (cplx 0 0) (cplx 1 0) (cplx 1 0) (cplx 0 0).
Definition PauliY : Matrix2 :=
  mkMatrix2 (cplx 0 0) (cplx 0 (-1)) (cplx 0 1) (cplx 0 0).
Definition PauliZ : Matrix2 :=
  mkMatrix2 (cplx 1 0) (cplx 0 0) (cplx 0 0) (cplx (-1) 0).
Definition SGate : Matrix2 :=
  mkMatrix2 (cplx 1 0) (cplx 0 0) (cplx 0 0) (cplx 0 1).
Definition TGate : Matrix2 :=
  mkMatrix2 (cplx 1 0) (cplx 0 0) (cplx 0 0) (cplx (cos (PI / 4)) (sin (PI / 4))).
Definition Hadamard : Matrix2 :=
  mkMatrix2 (cplx (1 / R_sqrt.sqrt 2) 0) (cplx (1 / R_sqrt.sqrt 2) 0)
            (cplx (1 / R_sqrt.sqrt 2) 0) (cplx (- (1 / R_sqrt.sqrt 2)) 0).

(** *** What the view imports

    [three] supplies quaternions.  [../src/cplx.js] supplies the rotation
    engine [Rotations] with its gate descriptors [AppliedGate], and the
    formatter [toLaTeX]; their code is not among the sources, so the view
    is verified against every implementation of this interface. *)

Definition Vector3 : Type := (R * R * R)%type.

Class Three : Type := {
  Quaternion : Type;
  (** [new Quaternion()], the orientation after [rotation.set(0, 0, 0)] *)
  identityQuaternion : Quaternion;
  (** [v.applyQuaternion(q)] *)
  applyQuaternion : Vector3 -> Quaternion -> Vector3
}.

(** A path keyframe [{pos, ref}].  Keyframes are objects owned by the
    rotation engine and handed out by reference; the renderer writes their
    [ref] field.  [ref] holds the identity of the marker drawn for the
    keyframe, if any. *)
Record PathEntry `{Three} : Type := mkPathEntry {
  pos : Quaternion;
  ref : option nat
}.

Arguments mkPathEntry {_} _ _.

(** The keyframe objects, by identity. *)
Abbreviation PathStore := (gmap nat PathEntry).

Class CplxJs `{Three} : Type := {
  AppliedGate : Type;
  Rotations : Type;
  (** [new Rotations(n)] *)
  newRotations : nat -> Rotations;
  rotateX : R -> Rotations -> PathStore -> AppliedGate * Rotations * PathStore;
  rotateY : R -> Rotations -> PathStore -> AppliedGate * Rotations * PathStore;
  rotateZ : R -> Rotations -> PathStore -> AppliedGate * Rotations * PathStore;
  rotateH : R -> Rotations -> PathStore -> AppliedGate * Rotations * PathStore;
  (** [getRotationAtPercent(gate, t)] returns [{pos, path}]; [path] is an
      array of keyframe objects *)
  getRotationAtPercent :
    AppliedGate -> R -> Rotations -> PathStore ->
    (Quaternion * list nat) * Rotations * PathStore;
  resetRotations : Rotations -> PathStore -> Rotations * PathStore;
  (** [v.toLaTeX()] *)
  toLaTeX : Vec2 -> string
}.

(** *** The renderer *)

(** A trail marker: a [Mesh] with its identity, position, material colour
    and scale. *)
Record Mesh : Type := mkMesh {
  meshId : nat;
  position : Vector3;
  color : Z;
  scale : Vector3
}.

(** What the host answers during one run of [processQueue]: the two
    readings of [performance.now()] (at the pop, and for the elapsed time)
    and the handle returned by [requestAnimationFrame], which is never 0. *)
Record FrameEnv : Type := mkFrameEnv {
  popTime : R;
  frameTime : R;
  handle : positive
}.

Section Renderer.
Context {three : Three} {cplxjs : CplxJs}.

(** The fields of [BlochRenderer] that the animation reads or writes,
    the two variables [currentGate] and [startTime] of the running
    [processQueue] closure, and the keyframe objects.  Camera, controls,
    lights and the drawing itself are the renderer's business and are left
    out.  [nextMeshId] is the identity the next created [Mesh] gets. *)
Record BlochRenderer : Type := mkBlochRenderer {
  rotations : Rotations;
  pathStore : PathStore;
  qubit : Quaternion;
  trail : list Mesh;
  nextMeshId : nat;
  animationCallbackId : N;
  gateQueue : list AppliedGate;
  currentGate : option AppliedGate;
  startTime : R
}.

(** [new BlochRenderer(canvas)] *)
Definition newBlochRenderer : BlochRenderer :=
  {| rotations := newRotations 64;
     pathStore := ∅;
     qubit := identityQuaternion;
     trail := [];
     nextMeshId := 0;
     animationCallbackId := 0;
     gateQueue := [];
     currentGate := None;
     startTime := 0 |}.

(** The part of the renderer that drawing the path touches. *)
Record Drawing : Type := mkDrawing {
  dStore : PathStore;
  dTrail : list Mesh;
  dNext : nat
}.

(** The marker of a keyframe at orientation [q]. *)
Definition trackBall (id : nat) (q : Quaternion) : Mesh :=
  {| meshId := id;
     position := applyQuaternion (0, 5, 0) q;
     color := 0x808080;
     scale := (1, 1, 1) |}.

(** The body of [currentRotation.path.forEach], for the keyframe [val]. *)
Definition drawEntry (d : Drawing) (val : nat) : Drawing :=
  match dStore d !! val with
  | Some entry =>
      match ref entry with
      | Some _ => d
      | None =>
          let ball := trackBall (dNext d) (pos entry) in
          {| dStore := <[val := mkPathEntry (pos entry) (Some (meshId ball))]> (dStore d);
             dTrail := dTrail d ++ [ball];
             dNext := S (dNext d) |}
      end
  | None => d
  end.

Definition drawPath (path : list nat) (d : Drawing) : Drawing :=
  fold_left drawEntry path d.

(** A keyframe without a marker, and a keyframe with the marker drawn for
    it: the keyframe had none [before], the marker sits where the keyframe
    points, and [after] the keyframe's [ref] holds it. *)
Definition unmarked (store : PathStore) (k : nat) : Prop :=
  exists entry, store !! k = Some entry /\ ref entry = None.

Definition markerOf (before after : PathStore) (k : nat) (ball : Mesh) : Prop :=
  exists entry,
    before !! k = Some entry /\
    ref entry = None /\
    ball = trackBall (meshId ball) (pos entry) /\
    after !! k = Some (mkPathEntry (pos entry) (Some (meshId ball))).

(** Where a marker is: its identity and its position. *)
Definition placed (ball : Mesh) : nat * Vector3 := (meshId ball, position ball).

(** The fade weight of the trail entry at position [idx] out of [n]. *)
Definition fadeWeight (n idx : nat) : R :=
  easeOutSine (INR (idx + 1) / INR n).

(** The body of [this.trail.children.forEach]. *)
Definition fadeBall (n idx : nat) (ball : Mesh) : Mesh :=
  let sat := fadeWeight n idx in
  {| meshId := meshId ball;
     position := position ball;
     color := hslToRgb (6 / 10) sat (1 / 2);
     scale := (sat + 1 / 2, sat + 1 / 2, sat + 1 / 2) |}.

Definition fadeTrail (children : list Mesh) : list Mesh :=
  imap (fadeBall (length children)) children.

(** The progress of a gate started at [start], read at [now]. *)
Definition easedProgress (start now : R) : R :=
  let x := (now - start) / rotationTimeMs in
  if Rlt_dec x 1 then easeInOutSine x else 1.

(** What one frame publishes through [this.render()]. *)
Record Frame : Type := mkFrame {
  frGate : AppliedGate;
  frPopped : bool;      (* the gate was taken from the queue in this frame *)
  frStart : R;
  frProgress : R;
  frPos : Quaternion
}.

(** The gate a run of [processQueue] works on: the current one, or else the
    head of the queue, taken now. *)
Definition nextGate (env : FrameEnv) (r : BlochRenderer)
  : option (AppliedGate * R * list AppliedGate * bool) :=
  match currentGate r with
  | Some gate => Some (gate, startTime r, gateQueue r, false)
  | None =>
      match gateQueue r with
      | [] => None
      | gate :: rest => Some (gate, popTime env, rest, true)
      end
  end.

Definition processQueue (env : FrameEnv) (r : BlochRenderer)
  : BlochRenderer * option Frame :=
  match nextGate env r with
  | None =>
      (* Queue was empty. Done *)
      ({| rotations := rotations r; pathStore := pathStore r; qubit := qubit r;
          trail := trail r; nextMeshId := nextMeshId r;
          animationCallbackId := 0;
          gateQueue := gateQueue r; currentGate := None;
          startTime := startTime r |},
       None)
  | Some (gate, start, queue, popped) =>
      let t := easedProgress start (frameTime env) in
      let '(currentPos, path, rotations', store') :=
        getRotationAtPercent gate t (rotations r) (pathStore r) in
      let d := drawPath path (mkDrawing store' (trail r) (nextMeshId r)) in
      ({| rotations := rotations'; pathStore := dStore d;
          qubit := currentPos;
          trail := fadeTrail (dTrail d); nextMeshId := dNext d;
          animationCallbackId := Npos (handle env);
          gateQueue := queue;
          currentGate := if Rge_dec t 1 then None else Some gate;
          startTime := start |},
       Some (mkFrame gate popped start t currentPos))
  end.

Definition queueGate (env : FrameEnv) (gate : AppliedGate) (r : BlochRenderer)
  : BlochRenderer * option Frame :=
  let queue := gateQueue r ++ [gate] in
  if N.eqb (animationCallbackId r) 0 then
    processQueue env
      {| rotations := rotations r; pathStore := pathStore r; qubit := qubit r;
         trail := trail r; nextMeshId := nextMeshId r;
         animationCallbackId := animationCallbackId r;
         gateQueue := queue; currentGate := None; startTime := 0 |}
  else
    (* Queue is already running *)
    ({| rotations := rotations r; pathStore := pathStore r; qubit := qubit r;
        trail := trail r; nextMeshId := nextMeshId r;
        animationCallbackId := animationCallbackId r;
        gateQueue := queue; currentGate := currentGate r;
        startTime := startTime r |},
     None).

(** The frame callback, when the host runs it: there is one exactly when
    [animationCallbackId] is not 0. *)
Definition animationFrame (env : FrameEnv) (r : BlochRenderer)
  : BlochRenderer * option Frame :=
  if N.eqb (animationCallbackId r) 0 then (r, None) else processQueue env r.

(** The rotation axes of the engine. *)
Inductive Axis : Type := AxisX | AxisY | AxisZ | AxisH.

Definition engineRotate (axis : Axis)
  : R -> Rotations -> PathStore -> AppliedGate * Rotations * PathStore :=
  match axis with
  | AxisX => rotateX
  | AxisY => rotateY
  | AxisZ => rotateZ
  | AxisH => rotateH
  end.

(** [this.queueGate(this.rotations.rotate_(angle))] *)
Definition rendererRotate (axis : Axis) (env : FrameEnv) (angle : R)
    (r : BlochRenderer) : BlochRenderer * option Frame :=
  let '(gate, rotations', store') :=
    engineRotate axis angle (rotations r) (pathStore r) in
  queueGate env gate
    {| rotations := rotations'; pathStore := store'; qubit := qubit r;
       trail := trail r; nextMeshId := nextMeshId r;
       animationCallbackId := animationCallbackId r;
       gateQueue := gateQueue r; currentGate := currentGate r;
       startTime := startTime r |}.

Definition BlochRenderer_rotateX := rendererRotate AxisX.
Definition BlochRenderer_rotateY := rendererRotate AxisY.
Definition BlochRenderer_rotateZ := rendererRotate AxisZ.
Definition BlochRenderer_rotateH := rendererRotate AxisH.

(** [BlochRenderer.reset()] *)
Definition BlochRenderer_reset (r : BlochRenderer) : BlochRenderer :=
  let '(rotations', store') := resetRotations (rotations r) (pathStore r) in
  {| rotations := rotations'; pathStore := store';
     qubit := identityQuaternion;
     trail := []; nextMeshId := nextMeshId r;
     animationCallbackId := animationCallbackId r;
     gateQueue := gateQueue r; currentGate := currentGate r;
     startTime := startTime r |}.

End Renderer.

(** *** The [BlochSphere] component *)

Definition gateLaTeX_X : string := "\begin{bmatrix} 0 & 1 \\ 1 & 0 \end{bmatrix}".
Definition gateLaTeX_Y : string := "\begin{bmatrix} 0 & -i \\ i & 0 \end{bmatrix}".
Definition gateLaTeX_Z : string := "\begin{bmatrix} 1 & 0 \\ 0 & -1 \end{bmatrix}".
Definition gateLaTeX_S : string :=
  "\begin{bmatrix} 1 & 0 \\ 0 & e^{i {\pi \over 2}} \end{bmatrix}".
Definition gateLaTeX_T : string :=
  "\begin{bmatrix} 1 & 0 \\ 0 & e^{i {\pi \over 4}} \end{bmatrix}".
Definition gateLaTeX_H : string :=
  "{1 \over \sqrt{2}} \begin{bmatrix} 1 & 1 \\ 1 & -1 \end{bmatrix}".

Definition newline : string := String (ascii_of_nat 10) EmptyString.

Definition getLaTeX (gateName gateMatrix oldState newState : string) : string :=
  ("$$ " ++ gateName ++ " | \psi \rangle =" ++ newline ++
   "  " ++ gateMatrix ++ newline ++
   "  \cdot " ++ oldState ++ newline ++
   "  = " ++ newState ++ newline ++
   "  $$")%string.

Section Component.
Context {three : Three} {cplxjs : CplxJs}.

(** The hooks of the component: the three pieces of state and the
    [renderer] ref.  A state setter takes effect before the next event is
    handled, so each handler reads the values the previous one wrote. *)
Record BlochSphere : Type := mkBlochSphere {
  gates : list string;
  gateArray : list string;
  state : Vec2;
  renderer : option BlochRenderer
}.

(** The component once its effects have run: the canvas of the returned
    markup exists, so the renderer does. *)
Definition mounted (propsGates : option (list string)) : BlochSphere :=
  {| gates := default [] propsGates;
     gateArray := [];
     state := Ket0;
     renderer := Some newBlochRenderer |}.

(** What a handler does besides updating the component: lines written by
    [console.error], and the frame published if the queue was started. *)
Record Effects : Type := mkEffects {
  errors : list string;
  published : option Frame
}.

(** One recognized case of the [switch] in [rotate]. *)
Definition gateCase (c : BlochSphere) (r : BlochRenderer)
    (rendererRotate_ : BlochRenderer * option Frame)
    (matrix : Matrix2) (name latex : string)
  : option BlochRenderer * Vec2 * list string * Effects :=
  let newState := mulVec2 matrix (state c) in
  (Some (fst rendererRotate_), newState,
   gateArray c ++ [getLaTeX name latex (toLaTeX (state c)) (toLaTeX newState)],
   mkEffects [] (snd rendererRotate_)).

Definition rotate (env : FrameEnv) (gate : string) (c : BlochSphere)
  : BlochSphere * Effects :=
  let newState := vec2 (state c) in
  let '(renderer', newState, gateArray', effects) :=
    match renderer c with
    | Some r =>
        if String.eqb gate "X" then
          gateCase c r (BlochRenderer_rotateX env PI r) PauliX "X" gateLaTeX_X
        else if String.eqb gate "Y" then
          gateCase c r (BlochRenderer_rotateY env PI r) PauliY "Y" gateLaTeX_Y
        else if String.eqb gate "Z" then
          gateCase c r (BlochRenderer_rotateZ env PI r) PauliZ "Z" gateLaTeX_Z
        else if String.eqb gate "S" then
          gateCase c r (BlochRenderer_rotateZ env (PI / 2) r) SGate "S" gateLaTeX_S
        else if String.eqb gate "T" then
          gateCase c r (BlochRenderer_rotateZ env (PI / 4) r) TGate "T" gateLaTeX_T
        else if String.eqb gate "H" then
          gateCase c r (BlochRenderer_rotateH env PI r) Hadamard "H" gateLaTeX_H
        else
          (Some r, newState, gateArray c,
           mkEffects [("Unknown gate: " ++ gate)%string] None)
    | None => (None, newState, gateArray c, mkEffects [] None)
    end in
  ({| gates := gates c ++ [gate];
      gateArray := gateArray';
      state := newState;
      renderer := renderer' |},
   effects).

Definition reset (c : BlochSphere) : BlochSphere :=
  {| gates := [];
     gateArray := [];
     state := vec2 Ket0;
     renderer := option_map BlochRenderer_reset (renderer c) |}.

(** *** Runs *)

(** What can happen to a renderer: a gate is queued, the host runs the
    frame callback, the renderer is reset. *)
Inductive Op : Type :=
| OpQueue (env : FrameEnv) (gate : AppliedGate)
| OpFrame (env : FrameEnv)
| OpReset.

Definition stepOp (op : Op) (r : BlochRenderer) : BlochRenderer * option Frame :=
  match op with
  | OpQueue env gate => queueGate env gate r
  | OpFrame env => animationFrame env r
  | OpReset => (BlochRenderer_reset r, None)
  end.

(** The renderer after the operations [ops], with the frames published on
    the way, oldest first. *)
Fixpoint runOps (ops : list Op) (r : BlochRenderer)
  : BlochRenderer * list Frame :=
  match ops with
  | [] => (r, [])
  | op :: rest =>
      let '(r1, frame) := stepOp op r in
      let '(r2, frames) := runOps rest r1 in
      (r2, option_list frame ++ frames)
  end.

(** The gates handed to [queueGate], in call order, and the gates taken
    from the queue, in frame order. *)
Definition queuedGates (ops : list Op) : list AppliedGate :=
  flat_map (fun op => match op with OpQueue _ gate => [gate] | _ => [] end) ops.

Definition poppedGates (frames : list Frame) : list AppliedGate :=
  map frGate (List.filter frPopped frames).

(** Frames in sequence: a frame that takes a gate from the queue comes
    first or right after a frame that completed its gate (progress 1); any
    other frame continues the gate of the frame before it, which had not
    completed. [prev] is the frame before the list, if any. *)
Fixpoint oneGateAtATime (prev : option Frame) (frames : list Frame) : Prop :=
  match frames with
  | [] => True
  | f :: rest =>
      match prev with
      | None => frPopped f = true
      | Some f0 =>
          (frPopped f = true /\ frProgress f0 = 1) \/
          (frPopped f = false /\ frGate f = frGate f0 /\
           frStart f = frStart f0 /\ frProgress f0 < 1)
      end /\
      oneGateAtATime (Some f) rest
  end.

(** Adjacent frames, in plain terms: a gate is taken from the queue only
    right after a frame with progress 1. *)
Definition popsOnlyAfterCompletion (frames : list Frame) : Prop :=
  forall before f1 f2 after,
    frames = before ++ f1 :: f2 :: after ->
    (frPopped f2 = true -> frProgress f1 = 1) /\
    (frPopped f2 = false -> frGate f2 = frGate f1 /\ frProgress f1 < 1).

(** Invariants of the queue.  When no callback is scheduled nothing is
    pending or active; the active gate is the gate of the last published
    frame [prev], which had not completed, and without an active gate the
    last frame, if any, completed its gate. *)
Definition idleInv (r : BlochRenderer) : Prop :=
  animationCallbackId r = 0%N -> gateQueue r = [] /\ currentGate r = None.

Definition gateInv (r : BlochRenderer) (prev : option Frame) : Prop :=
  match currentGate r with
  | Some gate =>
      exists f, prev = Some f /\ frGate f = gate /\
                frStart f = startTime r /\ frProgress f < 1
  | None => forall f, prev = Some f -> frProgress f = 1
  end.

(** The last frame of [frames], or [prev] if there is none. *)
Definition lastFrame (prev : option Frame) (frames : list Frame) : option Frame :=
  match last frames with
  | Some f => Some f
  | None => prev
  end.

(** What can happen to the component. *)
Inductive Event : Type :=
| EvRotate (env : FrameEnv) (gate : string)
| EvReset
| EvFrame (env : FrameEnv).

Definition stepEvent (ev : Event) (c : BlochSphere) : BlochSphere :=
  match ev with
  | EvRotate env gate => fst (rotate env gate c)
  | EvReset => reset c
  | EvFrame env =>
      {| gates := gates c; gateArray := gateArray c; state := state c;
         renderer := option_map (fun r => fst (animationFrame env r)) (renderer c) |}
  end.

Definition runEvents (evs : list Event) (c : BlochSphere) : BlochSphere :=
  fold_left (fun c ev => stepEvent ev c) evs c.

(** The queue is [Idle]: no frame callback is scheduled, nothing is
    pending and no gate is active. *)
Definition Idle (r : BlochRenderer) : Prop :=
  animationCallbackId r = 0%N /\ gateQueue r = [] /\ currentGate r = None.


(** What the spec says of an unknown gate name: [rotate] changes neither
    the amplitudes, nor the renderer (trail, gate queue), nor the gate-name
    history, and writes one diagnostic. *)
Definition unknownGateIsNoop (env : FrameEnv) (gate : string)
    (c : BlochSphere) : Prop :=
  state (fst (rotate env gate c)) = state c /\
  renderer (fst (rotate env gate c)) = renderer c /\
  gates (fst (rotate env gate c)) = gates c /\
  length (errors (snd (rotate env gate c))) = 1%nat.


(** The rotation the spec assigns to each gate name. *)
Definition specRotation (gate : string) : option (Axis * R) :=
  if String.eqb gate "X" then Some (AxisX, PI)
  else if String.eqb gate "Y" then Some (AxisY, PI)
  else if String.eqb gate "Z" then Some (AxisZ, PI)
  else if String.eqb gate "H" then Some (AxisH, PI)
  else if String.eqb gate "S" then Some (AxisZ, PI / 2)
  else if String.eqb gate "T" then Some (AxisZ, PI / 4)
  else None.

Definition recognized (gate : string) : Prop :=
  In gate ["X"; "Y"; "Z"; "S"; "T"; "H"]%string.

(** Frames that animate a number of gates one after the other: for each
    gate a frame at time [a] that takes it from the queue and a frame at a
    time [b] at which it is shown for the last time, and a last frame.
    Within a frame the clock is read twice; both readings are the same
    here. *)
Definition frameAt (h : positive) (t : R) : FrameEnv := mkFrameEnv t t h.

Definition animateAll (h : positive) (times : list (R * R)) (final : R)
  : list Op :=
  flat_map (fun ab => [OpFrame (frameAt h (fst ab)); OpFrame (frameAt h (snd ab))])
           times ++
  [OpFrame (frameAt h final)].

(** Gates queued in rapid succession and then animated: [first] is queued
    on the renderer at time [t0], the gates of [rest] are queued while it
    animates, the frame at time [done] shows [first] for the last time,
    and the frames of [times] and one more animate the rest. *)
Definition rapidSuccession (h : positive) (t0 : R) (first : AppliedGate)
    (rest : list (FrameEnv * AppliedGate)) (done : R)
    (times : list (R * R)) (final : R) : list Op :=
  OpQueue (frameAt h t0) first ::
  map (fun eg => OpQueue (fst eg) (snd eg)) rest ++
  OpFrame (frameAt h done) :: animateAll h times final.

(** What a frame shows of the queue: the gate, whether it was taken from
    the queue in this frame, and its progress. *)
Definition frameView (f : Frame) : AppliedGate * bool * R :=
  (frGate f, frPopped f, frProgress f).

(** The renderer after [queueGate] of the gate that a call of a rotation
    method of the engine returned, with what the call published. *)
Definition queueRequested (env : FrameEnv) (r : BlochRenderer)
    (request : AppliedGate * Rotations * PathStore)
  : option BlochRenderer * option Frame :=
  let queued :=
    queueGate env (fst (fst request))
      (mkBlochRenderer (snd (fst request)) (snd request) (qubit r) (trail r)
         (nextMeshId r) (animationCallbackId r) (gateQueue r) (currentGate r)
         (startTime r)) in
  (Some (fst queued), snd queued).

(** What [rotate] did to the renderer, with what it published. *)
Definition dispatched (env : FrameEnv) (gate : string) (c : BlochSphere)
  : option BlochRenderer * option Frame :=
  (renderer (fst (rotate env gate c)), published (snd (rotate env gate c))).

(** The gate names of the [rotate] events of a run, the events after the
    last reset of a run (if there is a reset), and the names [rotate] has a
    case for. *)
Definition rotateNames (evs : list Event) : list string :=
  flat_map (fun ev => match ev with EvRotate _ gate => [gate] | _ => [] end) evs.

Fixpoint afterLastReset (evs : list Event) : option (list Event) :=
  match evs with
  | [] => None
  | ev :: rest =>
      match afterLastReset rest with
      | Some later => Some later
      | None => match ev with EvReset => Some rest | _ => None end
      end
  end.

Definition recognizedB (gate : string) : bool :=
  existsb (String.eqb gate) ["X"; "Y"; "Z"; "S"; "T"; "H"]%string.

End Component.

(** *** An implementation of the imports

    Modelled from the spec: the [Rotations] engine of [../src/cplx.js], not
    among the sources, as section 4.3 of the spec describes it.  The engine
    keeps the current orientation, which starts at the identity.  A gate
    is its axis and angle.  [getRotationAtPercent(gate, t)] clamps [t] to
    [0, 1], interpolates spherically from the current orientation to the
    current orientation rotated about the gate's axis in world
    coordinates, makes sure that the keyframes of the gate up to [t] exist
    (at the fixed resolution), returns the retained path, and at [t = 1]
    commits the target as the new current orientation.  [reset] restores
    the start orientation and drops the retained path.  Quaternions are
    those of three.js; the axes are the ones the renderer draws: x towards
    the viewer, y to the right, z up.  The formatter [toLaTeX] prints
    decimal numerals, which real numbers do not have; here it prints a
    fixed symbol.  The development uses this implementation to run the view
    on concrete inputs; every property of the view is proved for all
    implementations. *)

Module Model.

Record Quat : Type := quat { qx : R; qy : R; qz : R; qw : R }.

Definition qmul (a b : Quat) : Quat :=
  quat (qw a * qx b + qx a * qw b + qy a * qz b - qz a * qy b)
       (qw a * qy b - qx a * qz b + qy a * qw b + qz a * qx b)
       (qw a * qz b + qx a * qy b - qy a * qx b + qz a * qw b)
       (qw a * qw b - qx a * qx b - qy a * qy b - qz a * qz b).

Definition qconj (a : Quat) : Quat := quat (- qx a) (- qy a) (- qz a) (qw a).

Definition qscale (k : R) (a : Quat) : Quat :=
  quat (k * qx a) (k * qy a) (k * qz a) (k * qw a).

Definition qadd (a b : Quat) : Quat :=
  quat (qx a + qx b) (qy a + qy b) (qz a + qz b) (qw a + qw b).

Definition qdot (a b : Quat) : R :=
  qx a * qx b + qy a * qy b + qz a * qz b + qw a * qw b.

Definition setFromAxisAngle (axis : Vector3) (angle : R) : Quat :=
  let '(x, y, z) := axis in
  let s := sin (angle / 2) in
  quat (x * s) (y * s) (z * s) (cos (angle / 2)).

Definition slerp (a b : Quat) (t : R) : Quat :=
  let c := qdot a b in
  if Rle_dec 1 (Rabs c) then a
  else
    let theta := acos c in
    qadd (qscale (sin ((1 - t) * theta) / sin theta) a)
         (qscale (sin (t * theta) / sin theta) b).

#[export] Instance three : Three := {|
  Quaternion := Quat;
  identityQuaternion := quat 0 0 0 1;
  applyQuaternion := fun v q =>
    let '(x, y, z) := v in
    let p := qmul (qmul q (quat x y z 0)) (qconj q) in
    (qx p, qy p, qz p)
|}.

Record Gate : Type := mkGate { gateAxis : Vector3; gateAngle : R }.

Record Engine : Type := mkEngine {
  resolution : nat;
  current : Quat;
  retained : list nat;     (* keyframes of the completed gates *)
  running : list nat       (* keyframes of the gate in progress *)
}.

Definition clamp01 (t : R) : R := Rmax 0 (Rmin t 1).

(** Keyframes [from .. from + count - 1] of a gate, allocated in the store. *)
Fixpoint addKeyframes (a b : Quat) (n from count : nat)
    (store : PathStore) (ids : list nat) : PathStore * list nat :=
  match count with
  | O => (store, ids)
  | S count' =>
      let id := fresh (dom store) in
      addKeyframes a b n (S from) count'
        (<[id := mkPathEntry (slerp a b (INR from / INR n)) None]> store)
        (ids ++ [id])
  end.

Definition rotateAbout (axis : Vector3) (angle : R) (e : Engine)
    (store : PathStore) : Gate * Engine * PathStore :=
  (mkGate axis angle, e, store).

Definition getRotation (g : Gate) (t : R) (e : Engine) (store : PathStore)
  : (Quat * list nat) * Engine * PathStore :=
  let t := clamp01 t in
  let target := qmul (setFromAxisAngle (gateAxis g) (gateAngle g)) (current e) in
  let due := S (Z.to_nat (Int_part (t * INR (resolution e)))) in
  let '(store', ids) :=
    addKeyframes (current e) target (resolution e) (length (running e))
      (due - length (running e)) store (running e) in
  let here := slerp (current e) target t in
  if Rle_dec 1 t then
    ((here, retained e ++ ids),
     mkEngine (resolution e) target (retained e ++ ids) [], store')
  else
    ((here, retained e ++ ids),
     mkEngine (resolution e) (current e) (retained e) ids, store').

#[export] Instance cplxjs : CplxJs := {|
  AppliedGate := Gate;
  Rotations := Engine;
  newRotations := fun n => mkEngine n (quat 0 0 0 1) [] [];
  rotateX := rotateAbout (0, 0, 1);
  rotateY := rotateAbout (1, 0, 0);
  rotateZ := rotateAbout (0, 1, 0);
  rotateH := rotateAbout (0, 1 / R_sqrt.sqrt 2, 1 / R_sqrt.sqrt 2);
  getRotationAtPercent := getRotation;
  resetRotations := fun e store =>
    (mkEngine (resolution e) (quat 0 0 0 1) [] [], store);
  toLaTeX := fun v => "\psi"%string
|}.

End Model.

(** *** Concrete inputs *)

Section Inputs.
Import Model.

Definition env0 : FrameEnv := mkFrameEnv 0 0 1.
Definition gateX : Gate := mkGate (0, 0, 1) PI.
Definition gateY : Gate := mkGate (1, 0, 0) PI.

(** The renderer as [queueGate] hands it to [processQueue] when X is
    applied to the new renderer. *)
Definition startingX : BlochRenderer :=
  mkBlochRenderer (newRotations 64) ∅ identityQuaternion [] 0 0 [gateX] None 0.

(** A renderer in the middle of X, with one marker on the trail. *)
Definition animatingX : BlochRenderer :=
  mkBlochRenderer (newRotations 64) ∅ identityQuaternion
    [mkMesh 0 (0, 5, 0) 0x808080 (1, 1, 1)] 1 1 [] (Some gateX) 0.

(** A renderer with X and Y pending after a gate has completed. *)
Definition pendingXY : BlochRenderer :=
  mkBlochRenderer (newRotations 64) ∅ identityQuaternion [] 0 1
    [gateX; gateY] None 0.

(** A renderer whose last gate has completed, before the frame that finds
    the queue empty. *)
Definition finishedX : BlochRenderer :=
  mkBlochRenderer (newRotations 64) ∅ identityQuaternion
    [mkMesh 0 (0, 5, 0) 0x808080 (1, 1, 1)] 1 1 [] None 0.

Definition env750 : FrameEnv := mkFrameEnv 750 750 2.

Definition gateZ : Gate := mkGate (0, 1, 0) PI.

End Inputs.

End Bloch.

(** ** Properties of the message handler *)

Module WebviewSpec.
Import Webview.

Lemma strictEqStr_true (v : JsVal) (s : string) :
  strictEqStr v s = true <-> v = JStr s.
Proof.
  destruct v; simpl; split; try discriminate.
  - intros H. apply String.eqb_eq in H. now subst.
  - intros [= ->]. apply String.eqb_refl.
Qed.

Lemma strictEqStr_false (v : JsVal) (s : string) :
  strictEqStr v s = false <-> v <> JStr s.
Proof.
  rewrite <- strictEqStr_true. destruct (strictEqStr v s); split;
    congruence.
Qed.

(** One step keeps [showEstimates] once it is set. *)
Lemma onMessage_keeps_showEstimates (g : Globals) (message : JsVal) :
  showEstimates g = true ->
  showEstimates (globals (onMessage g message)) = true.
Proof.
  intros Hg. unfold onMessage.
  repeat (match goal with
          | |- context [if ?c then _ else _] => destruct c
          | |- context [match ?c with _ => _ end] => destruct c
          end; simpl; auto).
Qed.

(** C8: a message without a command, with an unrecognized command, or an
    update whose buckets are missing or whose shotCount is not a number,
    leaves [histogramData], [shotCount] and [showEstimates] as they were,
    and the view is not rendered again. *)
Theorem onMessage_rejected_is_noop (g : Globals) (message : JsVal) :
  lacksCommand message \/ unrecognizedCommand message \/
    malformedUpdate message ->
  globals (onMessage g message) = g /\
  rendered (onMessage g message) = false.
Proof.
  unfold lacksCommand, unrecognizedCommand, malformedUpdate, onMessage.
  intros [Hc | [[Hu He] | [Hc Hb]]].
  - rewrite Hc. simpl. auto.
  - apply strictEqStr_false in Hu, He. rewrite Hu, He.
    destruct (truthy _); simpl; auto.
  - rewrite Hc. simpl.
    destruct Hb as [Hb | Hn].
    + rewrite Hb. simpl. auto.
    + rewrite Hn. rewrite orb_true_r. simpl. auto.
Qed.

Lemma onMessage_rejected_is_noop_witness :
  let message := JObj [("command", JStr "update"); ("shotCount", JStr "12")] in
  malformedUpdate message /\
  globals (onMessage initialGlobals message) = initialGlobals /\
  rendered (onMessage initialGlobals message) = false.
Proof.
  intros message.
  assert (Hm : malformedUpdate message).
  { split; [reflexivity | left; reflexivity]. }
  split; [exact Hm |].
  apply (onMessage_rejected_is_noop initialGlobals message).
  right; right; exact Hm.
Defined.

(** An accepted update replaces the histogram and renders. *)
Example onMessage_update_example :
  let message :=
    JObj [("command", JStr "update");
          ("buckets", JArr [JArr [JStr "00"; JNum 3%float];
                            JArr [JStr "11"; JNum 5%float];
                            JArr [JStr "00"; JNum 4%float]]);
          ("shotCount", JNum 9%float)] in
  onMessage initialGlobals message =
    mkOutcome
      (mkGlobals [(JStr "00", JNum 4%float); (JStr "11", JNum 5%float)]
                 9%float false)
      [] true false.
Proof. reflexivity. Qed.

(** C9: once an estimate message has been handled, [showEstimates] is
    true, and it is still true after any further messages. *)
Theorem showEstimates_latched
    (g : Globals) (estimate : JsVal) (later : list JsVal) :
  isEstimate estimate ->
  showEstimates (globals (onMessage g estimate)) = true /\
  showEstimates (onMessages (globals (onMessage g estimate)) later) = true.
Proof.
  intros He. unfold isEstimate in He.
  assert (H1 : showEstimates (globals (onMessage g estimate)) = true).
  { unfold onMessage. rewrite He. reflexivity. }
  split; [exact H1 |].
  generalize dependent (globals (onMessage g estimate)).
  induction later as [| m later IH]; intros g' Hg'; simpl.
  - exact Hg'.
  - apply IH. now apply onMessage_keeps_showEstimates.
Qed.

Lemma showEstimates_latched_witness :
  let estimate := JObj [("command", JStr "estimate")] in
  let later := [JObj [("command", JStr "update");
                      ("buckets", JArr [JArr [JStr "00"; JNum 3%float]]);
                      ("shotCount", JNum 3%float)];
                JNull; JObj [("command", JStr "reset")]] in
  isEstimate estimate /\
  showEstimates (globals (onMessage initialGlobals estimate)) = true /\
  showEstimates
    (onMessages (globals (onMessage initialGlobals estimate)) later) = true.
Proof.
  intros estimate later.
  split; [reflexivity |].
  apply (showEstimates_latched initialGlobals estimate later).
  reflexivity.
Defined.

(** *** What a call does, and what sequences of messages add up to *)

(** X1: a call of the handler does exactly one of three things: it renders
    (and writes nothing), or it writes one console line and returns, or it
    throws; the globals can only change in a call that renders. *)
Theorem onMessage_renders_logs_or_throws (g : Globals) (message : JsVal) :
  let o := onMessage g message in
  (rendered o = true /\ console o = [] /\ threw o = false) \/
  (rendered o = false /\ length (console o) = 1%nat /\ threw o = false /\
   globals o = g) \/
  (rendered o = false /\ console o = [] /\ threw o = true /\ globals o = g).
Proof.
  unfold onMessage.
  destruct (truthy (getProp message "command")); simpl; [| tauto].
  destruct (strictEqStr (getProp message "command") "update").
  - destruct (negb _ || negb _); simpl; [tauto |].
    destruct (newMap _) as [m |]; [| simpl; tauto].
    destruct (getProp message "shotCount"); simpl; tauto.
  - destruct (strictEqStr _ "estimate"); simpl; tauto.
Qed.

Lemma onMessage_showEstimates (g : Globals) (message : JsVal) :
  showEstimates (globals (onMessage g message)) =
    showEstimates g || isEstimateB message.
Proof.
  unfold onMessage, isEstimateB.
  destruct (getProp message "command") as [| | b | f | s | l | l] eqn:Hc; simpl;
    try (now rewrite orb_false_r);
    try (destruct b; simpl; now rewrite orb_false_r);
    try (destruct (negb _); simpl; now rewrite orb_false_r).
  destruct (String.eqb_spec s "") as [-> | Hne]; simpl;
    [now rewrite orb_false_r |].
  destruct (String.eqb_spec s "update") as [-> | Hu]; simpl.
  - rewrite orb_false_r.
    destruct (negb _ || negb _); simpl; [reflexivity |].
    destruct (newMap _); [| reflexivity].
    now destruct (getProp message "shotCount").
  - destruct (String.eqb s "estimate"); simpl;
      [now rewrite orb_true_r | now rewrite orb_false_r].
Qed.

Lemma onMessage_histogram (g : Globals) (message : JsVal) :
  (histogramData (globals (onMessage g message)),
   shotCount (globals (onMessage g message))) =
    default (histogramData g, shotCount g) (acceptedUpdate message).
Proof.
  unfold onMessage, acceptedUpdate.
  destruct (truthy (getProp message "command")) eqn:Ht; simpl.
  2: { destruct (strictEqStr _ "update") eqn:Hu; [| reflexivity].
       apply strictEqStr_true in Hu. rewrite Hu in Ht. discriminate. }
  destruct (strictEqStr _ "update"); simpl.
  - destruct (getProp message "buckets") as [| | b | f | s | l | l];
      destruct (getProp message "shotCount"); simpl; try reflexivity;
      repeat (match goal with
              | |- context [if ?c then _ else _] => destruct c
              | |- context [mapFromEntries ?l ?m] => destruct (mapFromEntries l m)
              end; simpl; try reflexivity).
  - now destruct (strictEqStr _ "estimate").
Qed.

Lemma showEstimates_fold (g : Globals) (messages : list JsVal) :
  showEstimates (onMessages g messages) =
    showEstimates g || existsb isEstimateB messages.
Proof.
  revert g. induction messages as [| m messages IH]; intros g; simpl.
  - now rewrite orb_false_r.
  - unfold onMessages in *. simpl. rewrite IH, onMessage_showEstimates.
    now rewrite orb_assoc.
Qed.

(** X3: the panel flag after a sequence of messages: it is set exactly when it
    was set before or one of the messages was an estimate message. *)
Theorem showEstimates_after (g : Globals) (messages : list JsVal) :
  showEstimates (onMessages g messages) =
    showEstimates g || existsb isEstimateB messages.
Proof. exact (showEstimates_fold g messages). Qed.

Lemma histogram_fold (g : Globals) (messages : list JsVal) :
  (histogramData (onMessages g messages), shotCount (onMessages g messages)) =
    default (histogramData g, shotCount g) (lastAccepted messages).
Proof.
  revert g. induction messages as [| m messages IH]; intros g.
  - reflexivity.
  - unfold onMessages in *. simpl. rewrite IH, onMessage_histogram.
    unfold lastAccepted. simpl.
    destruct (acceptedUpdate m) as [u |]; simpl; [| reflexivity].
    rewrite last_cons. now destruct (last _).
Qed.

(** X4: the histogram after a sequence of messages is the one of the last
    accepted update; without one it is as before.  Messages that are
    rejected, that are estimates, or on which the [Map] constructor throws,
    do not count. *)
Theorem histogram_after (g : Globals) (messages : list JsVal) :
  (histogramData (onMessages g messages), shotCount (onMessages g messages)) =
    default (histogramData g, shotCount g) (lastAccepted messages).
Proof. exact (histogram_fold g messages). Qed.

Lemma onMessage_globals (g : Globals) (message : JsVal) :
  globals (onMessage g message) =
    mkGlobals
      (fst (default (histogramData g, shotCount g) (acceptedUpdate message)))
      (snd (default (histogramData g, shotCount g) (acceptedUpdate message)))
      (showEstimates g || isEstimateB message).
Proof.
  rewrite <- onMessage_histogram, <- onMessage_showEstimates.
  now destruct (globals (onMessage g message)).
Qed.

(** X2: handling the same message a second time changes nothing more: a
    message delivered twice leaves the globals as after the first time. *)
Theorem onMessage_twice (g : Globals) (message : JsVal) :
  globals (onMessage (globals (onMessage g message)) message) =
    globals (onMessage g message).
Proof.
  rewrite !onMessage_globals. simpl.
  destruct (acceptedUpdate message) as [[data shots] |]; simpl;
    now rewrite <- orb_assoc, orb_diag.
Qed.

(** X5: what the view shows after a sequence of messages from the start: the
    histogram of the last accepted update, but only if its shot count is
    neither zero nor NaN; the line break; and the estimates panel exactly
    if an estimate message has arrived. *)
Theorem App_after (messages : list JsVal) :
  App (onMessages initialGlobals messages) =
    [ match lastAccepted messages with
      | Some (data, shots) =>
          if truthy (JNum shots) then Some (HistogramElement data shots "")
          else None
      | None => None
      end;
      Some BrElement;
      if existsb isEstimateB messages then Some EstimatesElement else None ].
Proof.
  unfold App.
  rewrite showEstimates_fold.
  pose proof (histogram_fold initialGlobals messages) as H.
  destruct (lastAccepted messages) as [[data shots] |]; simpl in H;
    injection H as -> ->; reflexivity.
Qed.

End WebviewSpec.

(** ** Properties of the Bloch-sphere view *)

Module BlochSpec.
Import Bloch.
Local Open Scope list_scope.
Local Open Scope R_scope.

(** *** The easing curves *)

Lemma easeInOutSine_0 : easeInOutSine 0 = 0.
Proof. unfold easeInOutSine. rewrite Rmult_0_r, cos_0. lra. Qed.

Lemma easeInOutSine_1 : easeInOutSine 1 = 1.
Proof. unfold easeInOutSine. rewrite Rmult_1_r, cos_PI. lra. Qed.

Lemma easeInOutSine_le_1 (x : R) : easeInOutSine x <= 1.
Proof. unfold easeInOutSine. pose proof (COS_bound (PI * x)). lra. Qed.

Lemma easeInOutSine_mono (x y : R) :
  0 <= x -> x <= y -> y <= 1 -> easeInOutSine x <= easeInOutSine y.
Proof.
  intros H0 Hxy H1. unfold easeInOutSine.
  pose proof PI_RGT_0 as Hpi.
  assert (cos (PI * y) <= cos (PI * x)); [| lra].
  apply cos_decr_1; nra.
Qed.

Lemma easeOutSine_1 : easeOutSine 1 = 1.
Proof. unfold easeOutSine. rewrite Rmult_1_l. apply sin_PI2. Qed.

Lemma easeOutSine_mono (x y : R) :
  0 <= x -> x <= y -> y <= 1 -> easeOutSine x <= easeOutSine y.
Proof.
  intros H0 Hxy H1. unfold easeOutSine.
  pose proof PI_RGT_0 as Hpi.
  apply sin_incr_1; nra.
Qed.

Lemma fadeWeight_mono (n i j : nat) :
  (i <= j)%nat -> (j < n)%nat -> fadeWeight n i <= fadeWeight n j.
Proof.
  intros Hij Hjn. unfold fadeWeight.
  assert (Hn : 0 < INR n) by (apply lt_0_INR; lia).
  assert (Hi : 0 <= INR (i + 1)) by apply pos_INR.
  assert (Hle : INR (i + 1) <= INR (j + 1)) by (apply le_INR; lia).
  assert (Hjn' : INR (j + 1) <= INR n) by (apply le_INR; lia).
  apply easeOutSine_mono.
  - apply Rmult_le_pos; [exact Hi | left; now apply Rinv_0_lt_compat].
  - apply Rmult_le_compat_r; [left; now apply Rinv_0_lt_compat | exact Hle].
  - apply (Rmult_le_reg_r (INR n)); [exact Hn |].
    unfold Rdiv. rewrite Rmult_assoc, Rinv_l by lra. lra.
Qed.

Lemma fadeWeight_last (n : nat) : (0 < n)%nat -> fadeWeight n (n - 1) = 1.
Proof.
  intros Hn. unfold fadeWeight.
  replace (n - 1 + 1)%nat with n by lia.
  unfold Rdiv. rewrite Rinv_r.
  - apply easeOutSine_1.
  - apply not_0_INR. lia.
Qed.

Section Proofs.
Context {three : Three} {cplxjs : CplxJs}.

(** *** How [processQueue] runs *)

Lemma processQueue_idle (env : FrameEnv) (r : BlochRenderer) :
  nextGate env r = None ->
  processQueue env r =
    (mkBlochRenderer (rotations r) (pathStore r) (qubit r) (trail r)
       (nextMeshId r) 0 (gateQueue r) None (startTime r), None).
Proof. intros H. unfold processQueue. now rewrite H. Qed.

Lemma processQueue_gate (env : FrameEnv) (r : BlochRenderer)
    (gate : AppliedGate) (start : R) (queue : list AppliedGate) (popped : bool) :
  nextGate env r = Some (gate, start, queue, popped) ->
  let t := easedProgress start (frameTime env) in
  let out := getRotationAtPercent gate t (rotations r) (pathStore r) in
  let d := drawPath (snd (fst (fst out)))
             (mkDrawing (snd out) (trail r) (nextMeshId r)) in
  processQueue env r =
    (mkBlochRenderer (snd (fst out)) (dStore d) (fst (fst (fst out)))
       (fadeTrail (dTrail d)) (dNext d) (Npos (handle env)) queue
       (if Rge_dec t 1 then None else Some gate) start,
     Some (mkFrame gate popped start t (fst (fst (fst out))))).
Proof.
  intros H t out d. unfold processQueue. rewrite H.
  subst d out t.
  destruct (getRotationAtPercent _ _ _ _) as [[[p path] rot] store].
  reflexivity.
Qed.

Lemma processQueue_frame_inv (env : FrameEnv) (r r' : BlochRenderer)
    (frame : Frame) :
  processQueue env r = (r', Some frame) ->
  exists queue,
    nextGate env r =
      Some (frGate frame, frStart frame, queue, frPopped frame) /\
    frProgress frame = easedProgress (frStart frame) (frameTime env).
Proof.
  intros H. destruct (nextGate env r) as [[[[gate start] queue] popped] |] eqn:Hn.
  - rewrite (processQueue_gate _ _ _ _ _ _ Hn) in H.
    injection H as _ <-. now exists queue.
  - rewrite (processQueue_idle _ _ Hn) in H. discriminate.
Qed.

(** C5: in every frame that animates a gate, the progress is the eased
    elapsed fraction [x = elapsed / 750] while [x < 1] and 1 from [x >= 1]
    on; the easing curve is [-(cos(pi x) - 1) / 2], it does not decrease on
    [0, 1], and it takes 0 to 0 and 1 to 1. *)
Theorem frame_progress_is_eased
    (env : FrameEnv) (r r' : BlochRenderer) (frame : Frame) :
  processQueue env r = (r', Some frame) ->
  let x := (frameTime env - frStart frame) / 750 in
  (x < 1 -> frProgress frame = easeInOutSine x) /\
  (1 <= x -> frProgress frame = 1) /\
  (forall u, easeInOutSine u = - (cos (PI * u) - 1) / 2) /\
  (forall u v, 0 <= u -> u <= v -> v <= 1 -> easeInOutSine u <= easeInOutSine v) /\
  easeInOutSine 0 = 0 /\ easeInOutSine 1 = 1.
Proof.
  intros H x.
  destruct (processQueue_frame_inv _ _ _ _ H) as [queue [_ Ht]].
  rewrite Ht. unfold easedProgress, rotationTimeMs. fold x.
  split_and!.
  - intros Hx. destruct (Rlt_dec x 1); [reflexivity | lra].
  - intros Hx. destruct (Rlt_dec x 1); [lra | reflexivity].
  - reflexivity.
  - exact easeInOutSine_mono.
  - exact easeInOutSine_0.
  - exact easeInOutSine_1.
Qed.

(** *** The trail fade *)

Lemma fadeTrail_lookup (children : list Mesh) (idx : nat) (ball : Mesh) :
  fadeTrail children !! idx = Some ball ->
  exists ball0, children !! idx = Some ball0 /\
                ball = fadeBall (length children) idx ball0.
Proof.
  unfold fadeTrail. rewrite list_lookup_imap.
  destruct (children !! idx) as [ball0 |]; simpl; [| discriminate].
  intros [= <-]. now exists ball0.
Qed.

Lemma fadeTrail_length (children : list Mesh) :
  length (fadeTrail children) = length children.
Proof. unfold fadeTrail. apply length_imap. Qed.

Lemma processQueue_trail_faded (env : FrameEnv) (r r' : BlochRenderer)
    (frame : Frame) :
  processQueue env r = (r', Some frame) ->
  exists children, trail r' = fadeTrail children.
Proof.
  intros H. destruct (nextGate env r) as [[[[gate start] queue] popped] |] eqn:Hn.
  - rewrite (processQueue_gate _ _ _ _ _ _ Hn) in H.
    injection H as <- _. simpl. eauto.
  - rewrite (processQueue_idle _ _ Hn) in H. discriminate.
Qed.

(** *** Queueing while the queue runs *)

Lemma queueGate_running (env : FrameEnv) (gate : AppliedGate)
    (r : BlochRenderer) :
  animationCallbackId r <> 0%N ->
  queueGate env gate r =
    (mkBlochRenderer (rotations r) (pathStore r) (qubit r) (trail r)
       (nextMeshId r) (animationCallbackId r) (gateQueue r ++ [gate])
       (currentGate r) (startTime r),
     None).
Proof.
  intros H. unfold queueGate.
  destruct (N.eqb_spec (animationCallbackId r) 0); [contradiction | reflexivity].
Qed.

Lemma queueGate_idle (env : FrameEnv) (gate : AppliedGate)
    (r : BlochRenderer) :
  animationCallbackId r = 0%N ->
  queueGate env gate r =
    processQueue env
      (mkBlochRenderer (rotations r) (pathStore r) (qubit r) (trail r)
         (nextMeshId r) (animationCallbackId r) (gateQueue r ++ [gate])
         None 0).
Proof. intros H. unfold queueGate. now rewrite H. Qed.

(** C10: when a frame callback is scheduled, [queueGate] appends the gate
    to the queue and does nothing else: orientation, trail, active gate,
    its start time and the scheduled callback are as before, and nothing
    is published. *)
Theorem queueGate_while_running_only_appends
    (env : FrameEnv) (gate : AppliedGate) (r : BlochRenderer) :
  animationCallbackId r <> 0%N ->
  queueGate env gate r =
    (mkBlochRenderer (rotations r) (pathStore r) (qubit r) (trail r)
       (nextMeshId r) (animationCallbackId r) (gateQueue r ++ [gate])
       (currentGate r) (startTime r),
     None).
Proof. exact (queueGate_running env gate r). Qed.

(** *** Dispatch of the gate names *)

Lemma specRotation_inv (gate : string) (axis : Axis) (angle : R) :
  specRotation gate = Some (axis, angle) ->
  (gate = "X"%string /\ axis = AxisX /\ angle = PI) \/
  (gate = "Y"%string /\ axis = AxisY /\ angle = PI) \/
  (gate = "Z"%string /\ axis = AxisZ /\ angle = PI) \/
  (gate = "H"%string /\ axis = AxisH /\ angle = PI) \/
  (gate = "S"%string /\ axis = AxisZ /\ angle = PI / 2) \/
  (gate = "T"%string /\ axis = AxisZ /\ angle = PI / 4).
Proof.
  unfold specRotation. intros H.
  repeat match type of H with
  | (if String.eqb gate ?s then _ else _) = _ =>
      destruct (String.eqb_spec gate s) as [-> |];
        [injection H as <- <-; tauto |]
  end.
  discriminate.
Qed.

Lemma rotate_recognized (env : FrameEnv) (gate : string) (axis : Axis)
    (angle : R) (c : BlochSphere) (r : BlochRenderer) :
  renderer c = Some r ->
  specRotation gate = Some (axis, angle) ->
  renderer (fst (rotate env gate c)) = Some (fst (rendererRotate axis env angle r)) /\
  published (snd (rotate env gate c)) = snd (rendererRotate axis env angle r).
Proof.
  intros Hr Hspec.
  destruct (specRotation_inv gate axis angle Hspec)
    as [H | [H | [H | [H | [H | H]]]]];
    destruct H as (-> & -> & ->);
    unfold rotate; rewrite Hr; split; reflexivity.
Qed.

(** C4: for each recognized gate name, [rotate] asks the engine for the
    rotation the spec assigns to the name and queues the gate the engine
    returns: X calls [rotateX] with pi, Y calls [rotateY] with pi, Z calls
    [rotateZ] with pi, H calls [rotateH] with pi, S calls [rotateZ] with
    pi/2 and T calls [rotateZ] with pi/4. *)
Theorem rotate_requests_spec_rotation
    (env : FrameEnv) (c : BlochSphere) (r : BlochRenderer) :
  renderer c = Some r ->
  dispatched env "X" c =
    queueRequested env r (rotateX PI (rotations r) (pathStore r)) /\
  dispatched env "Y" c =
    queueRequested env r (rotateY PI (rotations r) (pathStore r)) /\
  dispatched env "Z" c =
    queueRequested env r (rotateZ PI (rotations r) (pathStore r)) /\
  dispatched env "H" c =
    queueRequested env r (rotateH PI (rotations r) (pathStore r)) /\
  dispatched env "S" c =
    queueRequested env r (rotateZ (PI / 2) (rotations r) (pathStore r)) /\
  dispatched env "T" c =
    queueRequested env r (rotateZ (PI / 4) (rotations r) (pathStore r)).
Proof.
  intros Hr.
  assert (Hcase : forall gate axis angle request,
            specRotation gate = Some (axis, angle) ->
            engineRotate axis angle (rotations r) (pathStore r) = request ->
            dispatched env gate c = queueRequested env r request).
  { intros gate axis angle request Hspec Hreq.
    destruct (rotate_recognized env gate axis angle c r Hr Hspec) as [H1 H2].
    unfold dispatched, queueRequested. rewrite H1, H2.
    unfold rendererRotate. rewrite Hreq.
    destruct request as [[g rot] store]. reflexivity. }
  split_and!.
  - exact (Hcase "X"%string AxisX PI _ eq_refl eq_refl).
  - exact (Hcase "Y"%string AxisY PI _ eq_refl eq_refl).
  - exact (Hcase "Z"%string AxisZ PI _ eq_refl eq_refl).
  - exact (Hcase "H"%string AxisH PI _ eq_refl eq_refl).
  - exact (Hcase "S"%string AxisZ (PI / 2) _ eq_refl eq_refl).
  - exact (Hcase "T"%string AxisZ (PI / 4) _ eq_refl eq_refl).
Qed.

(** *** Unknown gate names *)

Lemma not_recognized_eqb (gate : string) :
  ~ recognized gate ->
  String.eqb gate "X" = false /\ String.eqb gate "Y" = false /\
  String.eqb gate "Z" = false /\ String.eqb gate "S" = false /\
  String.eqb gate "T" = false /\ String.eqb gate "H" = false.
Proof.
  unfold recognized. simpl. intros H.
  repeat split; apply String.eqb_neq; intros ->; apply H; tauto.
Qed.

Lemma rotate_unknown (env : FrameEnv) (gate : string) (c : BlochSphere)
    (r : BlochRenderer) :
  renderer c = Some r ->
  ~ recognized gate ->
  rotate env gate c =
    (mkBlochSphere (gates c ++ [gate]) (gateArray c) (state c) (Some r),
     mkEffects [("Unknown gate: " ++ gate)%string] None).
Proof.
  intros Hr Hn.
  destruct (not_recognized_eqb gate Hn) as (HX & HY & HZ & HS & HT & HH).
  unfold rotate. rewrite Hr, HX, HY, HZ, HS, HT, HH. reflexivity.
Qed.

(** C2, as the code has it: for a gate name that is none of X, Y, Z, S, T
    and H, [rotate] (with its renderer present) writes exactly one
    diagnostic, publishes nothing and leaves the amplitudes, the renderer
    with its trail and its gate queue, and the LaTeX history as they were;
    the gate-name history does not stay as it was: the name is appended to
    it, as every name passed to [rotate] is. *)
Theorem rotate_unknown_gate_changes_only_the_names
    (env : FrameEnv) (gate : string) (c : BlochSphere) (r : BlochRenderer) :
  renderer c = Some r ->
  ~ recognized gate ->
  errors (snd (rotate env gate c)) = [("Unknown gate: " ++ gate)%string] /\
  published (snd (rotate env gate c)) = None /\
  state (fst (rotate env gate c)) = state c /\
  renderer (fst (rotate env gate c)) = Some r /\
  gateArray (fst (rotate env gate c)) = gateArray c /\
  gates (fst (rotate env gate c)) = gates c ++ [gate].
Proof.
  intros Hr Hn. rewrite (rotate_unknown env gate c r Hr Hn).
  split_and!; reflexivity.
Qed.

(** *** Drawing the path *)

Lemma drawEntry_marked (d : Drawing) (k : nat) :
  ~ unmarked (dStore d) k -> drawEntry d k = d.
Proof.
  intros H. unfold drawEntry.
  destruct (dStore d !! k) as [entry |] eqn:He; [| reflexivity].
  destruct (ref entry) eqn:Hr; [reflexivity |].
  exfalso. apply H. now exists entry.
Qed.

Lemma drawEntry_unmarked (d : Drawing) (k : nat) (entry : PathEntry) :
  dStore d !! k = Some entry -> ref entry = None ->
  drawEntry d k =
    mkDrawing (<[k := mkPathEntry (pos entry) (Some (dNext d))]> (dStore d))
      (dTrail d ++ [trackBall (dNext d) (pos entry)]) (S (dNext d)).
Proof. intros He Hr. unfold drawEntry. now rewrite He, Hr. Qed.

Lemma drawPath_skip (path : list nat) (d : Drawing) (k : nat) :
  ~ unmarked (dStore d) k ->
  (exists (keys : list nat) (markers : list Mesh),
    NoDup keys /\
    (forall k', k' ∈ keys <-> k' ∈ path /\ unmarked (dStore d) k') /\
    Forall2 (markerOf (dStore d) (dStore (drawPath path d))) keys markers /\
    map meshId markers = seq (dNext d) (length markers) /\
    dTrail (drawPath path d) = dTrail d ++ markers /\
    dNext (drawPath path d) = (dNext d + length markers)%nat /\
    (forall k', k' ∉ keys -> dStore (drawPath path d) !! k' = dStore d !! k')) ->
  exists (keys : list nat) (markers : list Mesh),
    NoDup keys /\
    (forall k', k' ∈ keys <-> k' ∈ k :: path /\ unmarked (dStore d) k') /\
    Forall2 (markerOf (dStore d) (dStore (drawPath (k :: path) d))) keys markers /\
    map meshId markers = seq (dNext d) (length markers) /\
    dTrail (drawPath (k :: path) d) = dTrail d ++ markers /\
    dNext (drawPath (k :: path) d) = (dNext d + length markers)%nat /\
    (forall k', k' ∉ keys ->
       dStore (drawPath (k :: path) d) !! k' = dStore d !! k').
Proof.
  intros Hm (keys & markers & Hnd & Hin & Hf & Hids & Ht & Hn & Hsame).
  exists keys, markers.
  change (drawPath (k :: path) d) with (drawPath path (drawEntry d k)).
  rewrite (drawEntry_marked d k Hm).
  split_and!; try assumption.
  intros k'. rewrite Hin. split.
  - intros [Hk Hu]. split; [now right | exact Hu].
  - intros [Hk Hu]. split; [| exact Hu].
    apply elem_of_cons in Hk as [-> | Hk]; [contradiction | exact Hk].
Qed.

Lemma drawPath_spec (path : list nat) (d : Drawing) :
  exists (keys : list nat) (markers : list Mesh),
    NoDup keys /\
    (forall k, k ∈ keys <-> k ∈ path /\ unmarked (dStore d) k) /\
    Forall2 (markerOf (dStore d) (dStore (drawPath path d))) keys markers /\
    map meshId markers = seq (dNext d) (length markers) /\
    dTrail (drawPath path d) = dTrail d ++ markers /\
    dNext (drawPath path d) = (dNext d + length markers)%nat /\
    (forall k, k ∉ keys -> dStore (drawPath path d) !! k = dStore d !! k).
Proof.
  revert d. induction path as [| k path IH]; intros d.
  - exists [], []. simpl. split_and!.
    + constructor.
    + intros k. split; [intros Hk | intros [Hk _]]; inversion Hk.
    + constructor.
    + reflexivity.
    + now rewrite app_nil_r.
    + lia.
    + reflexivity.
  - destruct (dStore d !! k) as [entry |] eqn:He.
    2: { apply drawPath_skip; [| apply IH].
         intros [e [He' _]]. congruence. }
    destruct (ref entry) as [m |] eqn:Hr.
    { apply drawPath_skip; [| apply IH].
      intros [e [He' Hr']]. congruence. }
    pose proof (drawEntry_unmarked d k entry He Hr) as Hd.
    change (drawPath (k :: path) d) with (drawPath path (drawEntry d k)).
    destruct (IH (drawEntry d k))
      as (keys & markers & Hnd & Hin & Hf & Hids & Ht & Hn & Hsame).
    set (d1 := drawEntry d k) in *.
    assert (Hstore1 : forall k', k' <> k -> dStore d1 !! k' = dStore d !! k').
    { intros k' Hne. rewrite Hd. simpl. now apply lookup_insert_ne. }
    assert (Hk1 : dStore d1 !! k = Some (mkPathEntry (pos entry) (Some (dNext d)))).
    { rewrite Hd. simpl. apply lookup_insert_eq. }
    assert (Hnotin : k ∉ keys).
    { intros Hk. apply Hin in Hk as [_ [e [He1 Hr1]]].
      rewrite Hk1 in He1. injection He1 as <-. discriminate. }
    exists (k :: keys), (trackBall (dNext d) (pos entry) :: markers).
    split_and!.
    + constructor; assumption.
    + intros k'. rewrite elem_of_cons, Hin. split.
      * intros [-> | [Hk [e [He1 Hr1]]]].
        -- split; [left | now exists entry].
        -- split; [now right |].
           destruct (decide (k' = k)) as [-> | Hne]; [now exists entry |].
           rewrite Hstore1 in He1 by exact Hne. now exists e.
      * intros [Hk [e [He1 Hr1]]].
        destruct (decide (k' = k)) as [-> | Hne]; [now left |].
        right. apply elem_of_cons in Hk as [-> | Hk]; [contradiction |].
        split; [exact Hk |]. exists e. now rewrite Hstore1.
    + constructor.
      * exists entry. split_and!; [exact He | exact Hr | reflexivity |].
        rewrite Hsame by exact Hnotin. exact Hk1.
      * eapply Forall2_impl; [exact Hf |].
        intros k' ball [e (He1 & Hr1 & Hb & Ha)].
        destruct (decide (k' = k)) as [-> | Hne].
        -- rewrite Hk1 in He1. injection He1 as <-. discriminate.
        -- exists e. rewrite <- Hstore1 by exact Hne. auto.
    + simpl. rewrite Hids. rewrite Hd. reflexivity.
    + rewrite Ht, Hd. simpl. now rewrite <- app_assoc.
    + rewrite Hn, Hd. simpl. lia.
    + intros k' Hk'. apply not_elem_of_cons in Hk' as [Hne Hk'].
      rewrite Hsame by exact Hk'. now apply Hstore1.
Qed.

Lemma processQueue_frame_result (env : FrameEnv) (r r' : BlochRenderer)
    (frame : Frame) :
  processQueue env r = (r', Some frame) ->
  let out := getRotationAtPercent (frGate frame) (frProgress frame)
               (rotations r) (pathStore r) in
  let d := drawPath (snd (fst (fst out)))
             (mkDrawing (snd out) (trail r) (nextMeshId r)) in
  pathStore r' = dStore d /\ trail r' = fadeTrail (dTrail d) /\
  nextMeshId r' = dNext d /\ qubit r' = fst (fst (fst out)) /\
  frPos frame = fst (fst (fst out)).
Proof.
  intros H. destruct (nextGate env r) as [[[[gate start] queue] popped] |] eqn:Hn.
  - rewrite (processQueue_gate _ _ _ _ _ _ Hn) in H.
    injection H as <- <-. simpl. auto.
  - rewrite (processQueue_idle _ _ Hn) in H. discriminate.
Qed.

(** C7: in every frame that animates a gate, exactly the keyframes of the
    returned path that have no marker get one: a new marker is created for
    each, appended to the trail and recorded in the keyframe's [ref]; each
    gets its own marker; every other keyframe, in particular every one
    that already has a marker, is as the engine returned it, and the trail
    entries that existed keep their place. *)
Theorem frame_marks_exactly_the_unmarked_keyframes
    (env : FrameEnv) (r r' : BlochRenderer) (frame : Frame) :
  processQueue env r = (r', Some frame) ->
  let out := getRotationAtPercent (frGate frame) (frProgress frame)
               (rotations r) (pathStore r) in
  let path := snd (fst (fst out)) in
  let store := snd out in
  exists (keys : list nat) (markers : list Mesh),
    NoDup keys /\
    (forall k, k ∈ keys <-> k ∈ path /\ unmarked store k) /\
    Forall2 (markerOf store (pathStore r')) keys markers /\
    map meshId markers = seq (nextMeshId r) (length markers) /\
    trail r' = fadeTrail (trail r ++ markers) /\
    (forall k, k ∉ keys -> pathStore r' !! k = store !! k).
Proof.
  intros H out path store.
  destruct (processQueue_frame_result _ _ _ _ H) as (Hs & Ht & _).
  fold out in Hs, Ht. fold path store in Hs, Ht.
  destruct (drawPath_spec path (mkDrawing store (trail r) (nextMeshId r)))
    as (keys & markers & Hnd & Hin & Hf & Hids & Htr & _ & Hsame).
  simpl in *.
  exists keys, markers. rewrite Hs, Ht, Htr. auto 10.
Qed.

(** C6: in every frame that animates a gate the trail that is faded is the
    old trail followed by the new markers; it has [n] entries, and the
    entry at position [idx] stays where it is, keeps its identity and its
    position, and is given the fade weight [easeOutSine((idx + 1) / n)]:
    its scale becomes the weight plus 1/2.  The weight does not decrease
    with [idx], and the last entry has the largest weight,
    [easeOutSine(1) = 1]. *)
Theorem trail_fades_by_recency
    (env : FrameEnv) (r r' : BlochRenderer) (frame : Frame) :
  processQueue env r = (r', Some frame) ->
  exists markers : list Mesh,
    let children := trail r ++ markers in
    let n := length children in
    length (trail r') = n /\
    (forall idx child, children !! idx = Some child ->
       exists ball,
         trail r' !! idx = Some ball /\
         meshId ball = meshId child /\ position ball = position child /\
         let w := easeOutSine (INR (idx + 1) / INR n) in
         scale ball = (w + 1 / 2, w + 1 / 2, w + 1 / 2)) /\
    (forall i j, (i <= j)%nat -> (j < n)%nat ->
       easeOutSine (INR (i + 1) / INR n) <= easeOutSine (INR (j + 1) / INR n)) /\
    (forall i, (i < n)%nat ->
       easeOutSine (INR (i + 1) / INR n) <=
       easeOutSine (INR (n - 1 + 1) / INR n)) /\
    ((0 < n)%nat -> easeOutSine (INR (n - 1 + 1) / INR n) = 1) /\
    easeOutSine 1 = 1.
Proof.
  intros H.
  destruct (processQueue_frame_result _ _ _ _ H) as (_ & Ht & _).
  match type of Ht with context [drawPath ?path ?d] =>
    destruct (drawPath_spec path d)
      as (_ & markers & _ & _ & _ & _ & Hd & _)
  end.
  rewrite Hd in Ht. simpl in Ht.
  exists markers. cbv zeta.
  set (children := trail r ++ markers) in *.
  split_and!.
  - rewrite Ht. apply fadeTrail_length.
  - intros idx child Hchild.
    exists (fadeBall (length children) idx child).
    split_and!; try reflexivity.
    rewrite Ht. unfold fadeTrail. rewrite list_lookup_imap, Hchild.
    reflexivity.
  - intros i j Hij Hj. exact (fadeWeight_mono (length children) i j Hij Hj).
  - intros i Hi. apply (fadeWeight_mono (length children) i (length children - 1)); lia.
  - intros Hn. exact (fadeWeight_last (length children) Hn).
  - exact easeOutSine_1.
Qed.

(** *** The queue discipline *)

Lemma easedProgress_le_1 (start now : R) : easedProgress start now <= 1.
Proof.
  unfold easedProgress. destruct (Rlt_dec _ 1); [apply easeInOutSine_le_1 | lra].
Qed.

Lemma nextGate_fifo (env : FrameEnv) (r : BlochRenderer)
    (gate : AppliedGate) (start : R) (queue : list AppliedGate) (popped : bool) :
  nextGate env r = Some (gate, start, queue, popped) ->
  (if popped then [gate] else []) ++ queue = gateQueue r.
Proof.
  unfold nextGate. destruct (currentGate r).
  - intros [= <- <- <- <-]. reflexivity.
  - destruct (gateQueue r); [discriminate |]. intros [= <- <- <- <-]. reflexivity.
Qed.

Lemma processQueue_fifo (env : FrameEnv) (r r' : BlochRenderer)
    (frame : option Frame) :
  processQueue env r = (r', frame) ->
  poppedGates (option_list frame) ++ gateQueue r' = gateQueue r.
Proof.
  intros H. destruct (nextGate env r) as [[[[gate start] queue] popped] |] eqn:Hn.
  - rewrite (processQueue_gate _ _ _ _ _ _ Hn) in H.
    injection H as <- <-. rewrite <- (nextGate_fifo _ _ _ _ _ _ Hn).
    unfold poppedGates. simpl. now destruct popped.
  - rewrite (processQueue_idle _ _ Hn) in H. injection H as <- <-. reflexivity.
Qed.

Lemma processQueue_idleInv (env : FrameEnv) (r r' : BlochRenderer)
    (frame : option Frame) :
  processQueue env r = (r', frame) -> idleInv r'.
Proof.
  intros H. destruct (nextGate env r) as [[[[gate start] queue] popped] |] eqn:Hn.
  - rewrite (processQueue_gate _ _ _ _ _ _ Hn) in H.
    injection H as <- _. intros Hid. discriminate Hid.
  - rewrite (processQueue_idle _ _ Hn) in H. injection H as <- _.
    intros _. simpl. split; [| reflexivity].
    unfold nextGate in Hn. destruct (currentGate r); [discriminate |].
    now destruct (gateQueue r).
Qed.

Lemma processQueue_gateInv (env : FrameEnv) (r r' : BlochRenderer)
    (frame : option Frame) (prev : option Frame) :
  gateInv r prev ->
  processQueue env r = (r', frame) ->
  gateInv r' (lastFrame prev (option_list frame)) /\
  oneGateAtATime prev (option_list frame).
Proof.
  intros Hinv H.
  destruct (nextGate env r) as [[[[gate start] queue] popped] |] eqn:Hn.
  - rewrite (processQueue_gate _ _ _ _ _ _ Hn) in H.
    injection H as <- <-.
    pose proof (easedProgress_le_1 start (frameTime env)) as Hle.
    split.
    + unfold gateInv, lastFrame. simpl.
      destruct (Rge_dec _ 1) as [Hge | Hlt].
      * intros f [= <-]. simpl. lra.
      * eexists. split; [reflexivity |]. simpl. split_and!; [reflexivity .. | lra].
    + simpl. split; [| exact I].
      unfold gateInv, nextGate in *.
      destruct (currentGate r) as [g |].
      * injection Hn as <- <- <- <-.
        destruct Hinv as [f0 (-> & Hg & Hs & Hp)]. right. simpl. auto.
      * destruct (gateQueue r); [discriminate |].
        injection Hn as <- <- <- <-.
        destruct prev as [f0 |]; [left; simpl; auto | reflexivity].
  - rewrite (processQueue_idle _ _ Hn) in H. injection H as <- <-.
    split; [| exact I].
    unfold gateInv, nextGate, lastFrame in *. simpl.
    destruct (currentGate r); [discriminate | exact Hinv].
Qed.

Lemma stepOp_invariants (op : Op) (r r' : BlochRenderer)
    (frame : option Frame) (prev : option Frame) :
  idleInv r -> gateInv r prev ->
  stepOp op r = (r', frame) ->
  idleInv r' /\ gateInv r' (lastFrame prev (option_list frame)) /\
  oneGateAtATime prev (option_list frame) /\
  poppedGates (option_list frame) ++ gateQueue r' =
    gateQueue r ++ queuedGates [op].
Proof.
  intros Hidle Hgate H. destruct op as [env gate | env |]; simpl in H.
  - unfold queueGate in H.
    destruct (N.eqb_spec (animationCallbackId r) 0) as [Hid | Hid].
    + destruct (Hidle Hid) as [Hq Hc].
      split_and!.
      * exact (processQueue_idleInv _ _ _ _ H).
      * refine (proj1 (processQueue_gateInv _ _ _ _ prev _ H)).
        unfold gateInv in *. simpl. now rewrite Hc in Hgate.
      * refine (proj2 (processQueue_gateInv _ _ _ _ prev _ H)).
        unfold gateInv in *. simpl. now rewrite Hc in Hgate.
      * rewrite (processQueue_fifo _ _ _ _ H). reflexivity.
    + injection H as <- <-. split_and!.
      * intros Hid'. contradiction.
      * exact Hgate.
      * exact I.
      * reflexivity.
  - unfold animationFrame in H.
    destruct (N.eqb_spec (animationCallbackId r) 0) as [Hid | Hid].
    + injection H as <- <-. simpl. rewrite app_nil_r. auto.
    + split_and!.
      * exact (processQueue_idleInv _ _ _ _ H).
      * exact (proj1 (processQueue_gateInv _ _ _ _ prev Hgate H)).
      * exact (proj2 (processQueue_gateInv _ _ _ _ prev Hgate H)).
      * rewrite (processQueue_fifo _ _ _ _ H). simpl. now rewrite app_nil_r.
  - injection H as <- <-. unfold BlochRenderer_reset.
    destruct (resetRotations _ _) as [rot store].
    simpl. rewrite app_nil_r. auto.
Qed.

Lemma oneGateAtATime_cons (prev : option Frame) (frame : option Frame)
    (frames : list Frame) :
  oneGateAtATime prev (option_list frame) ->
  oneGateAtATime (lastFrame prev (option_list frame)) frames ->
  oneGateAtATime prev (option_list frame ++ frames).
Proof.
  destruct frame as [f |]; simpl.
  - intros [H _] H'. split; assumption.
  - intros _ H'. exact H'.
Qed.

Lemma poppedGates_app (l1 l2 : list Frame) :
  poppedGates (l1 ++ l2) = poppedGates l1 ++ poppedGates l2.
Proof. unfold poppedGates. now rewrite List.filter_app, map_app. Qed.

Lemma queuedGates_cons (op : Op) (ops : list Op) :
  queuedGates (op :: ops) = queuedGates [op] ++ queuedGates ops.
Proof. unfold queuedGates. simpl. now rewrite app_nil_r. Qed.

Lemma runOps_invariants (ops : list Op) (r : BlochRenderer)
    (prev : option Frame) :
  idleInv r -> gateInv r prev ->
  idleInv (fst (runOps ops r)) /\
  oneGateAtATime prev (snd (runOps ops r)) /\
  poppedGates (snd (runOps ops r)) ++ gateQueue (fst (runOps ops r)) =
    gateQueue r ++ queuedGates ops.
Proof.
  revert r prev. induction ops as [| op ops IH]; intros r prev Hidle Hgate.
  - simpl. rewrite app_nil_r. auto.
  - simpl. destruct (stepOp op r) as [r1 frame] eqn:Hstep.
    destruct (stepOp_invariants _ _ _ _ prev Hidle Hgate Hstep)
      as (Hidle1 & Hgate1 & Hone & Hfifo).
    destruct (IH r1 _ Hidle1 Hgate1) as (Hidle2 & Hone2 & Hfifo2).
    destruct (runOps ops r1) as [r2 frames].
    cbn [fst snd] in *.
    split_and!.
    + exact Hidle2.
    + now apply oneGateAtATime_cons.
    + rewrite poppedGates_app, <- app_assoc, Hfifo2, app_assoc, Hfifo.
      rewrite <- app_assoc. now rewrite <- queuedGates_cons.
Qed.

Lemma oneGateAtATime_adjacent (prev : option Frame) (frames : list Frame) :
  oneGateAtATime prev frames -> popsOnlyAfterCompletion frames.
Proof.
  intros H before. revert prev frames H.
  induction before as [| f0 before IH]; intros prev frames H f1 f2 after ->.
  - simpl in H. destruct H as [_ [H _]].
    destruct H as [[Hp H1] | (Hp & Hg & _ & H1)]; split; intros Hp';
      try congruence; auto.
  - simpl in H. destruct H as [_ H]. exact (IH _ _ H f1 f2 after eq_refl).
Qed.

(** *** Reset *)




Lemma reset_fields (r : BlochRenderer) :
  trail (BlochRenderer_reset r) = [] /\
  qubit (BlochRenderer_reset r) = identityQuaternion /\
  rotations (BlochRenderer_reset r) =
    fst (resetRotations (rotations r) (pathStore r)) /\
  animationCallbackId (BlochRenderer_reset r) = animationCallbackId r /\
  gateQueue (BlochRenderer_reset r) = gateQueue r /\
  currentGate (BlochRenderer_reset r) = currentGate r /\
  startTime (BlochRenderer_reset r) = startTime r.
Proof.
  unfold BlochRenderer_reset.
  destruct (resetRotations _ _) as [rot store]. simpl. auto 10.
Qed.





(** *** Runs on given inputs *)

Lemma processQueue_fields (env : FrameEnv) (r : BlochRenderer)
    (gate : AppliedGate) (start : R) (queue : list AppliedGate) (popped : bool) :
  nextGate env r = Some (gate, start, queue, popped) ->
  let t := easedProgress start (frameTime env) in
  exists r' frame,
    processQueue env r = (r', Some frame) /\
    frGate frame = gate /\ frPopped frame = popped /\
    frStart frame = start /\ frProgress frame = t /\
    animationCallbackId r' = Npos (handle env) /\
    gateQueue r' = queue /\ startTime r' = start /\
    currentGate r' = (if Rge_dec t 1 then None else Some gate).
Proof.
  intros H t. rewrite (processQueue_gate _ _ _ _ _ _ H).
  eexists _, _. split; [reflexivity |]. simpl. auto 10.
Qed.

Lemma easedProgress_at_start (start : R) : easedProgress start start = 0.
Proof.
  unfold easedProgress, rotationTimeMs.
  replace ((start - start) / 750) with 0 by lra.
  destruct (Rlt_dec 0 1); [apply easeInOutSine_0 | lra].
Qed.

Lemma easedProgress_done (start now : R) :
  start + 750 <= now -> easedProgress start now = 1.
Proof.
  intros H. unfold easedProgress, rotationTimeMs.
  destruct (Rlt_dec _ 1) as [Hlt | _]; [| reflexivity].
  exfalso. apply (Rmult_lt_compat_r 750) in Hlt; [| lra].
  unfold Rdiv in Hlt. rewrite Rmult_assoc, Rinv_l in Hlt; lra.
Qed.




Lemma runOps_cons (op : Op) (ops : list Op) (r r1 : BlochRenderer)
    (frame : option Frame) :
  stepOp op r = (r1, frame) ->
  runOps (op :: ops) r =
    (fst (runOps ops r1), option_list frame ++ snd (runOps ops r1)).
Proof. intros H. simpl. rewrite H. now destruct (runOps ops r1). Qed.

Lemma frame_continues (env : FrameEnv) (r : BlochRenderer) (gate : AppliedGate) :
  animationCallbackId r <> 0%N -> currentGate r = Some gate ->
  let t := easedProgress (startTime r) (frameTime env) in
  exists r' frame,
    stepOp (OpFrame env) r = (r', Some frame) /\
    (frGate frame, frPopped frame, frProgress frame) = (gate, false, t) /\
    animationCallbackId r' <> 0%N /\ gateQueue r' = gateQueue r /\
    startTime r' = startTime r /\
    currentGate r' = (if Rge_dec t 1 then None else Some gate).
Proof.
  intros Hid Hc t. simpl. unfold animationFrame.
  destruct (N.eqb_spec (animationCallbackId r) 0); [contradiction |].
  destruct (processQueue_fields env r gate (startTime r) (gateQueue r) false)
    as (r' & frame & -> & Hg & Hp & _ & Ht & Hid' & Hq' & Hs & Hc').
  { unfold nextGate. now rewrite Hc. }
  exists r', frame. rewrite Hg, Hp, Ht.
  split_and!; auto. rewrite Hid'. discriminate.
Qed.

Lemma frame_pops (env : FrameEnv) (r : BlochRenderer) (gate : AppliedGate)
    (rest : list AppliedGate) :
  animationCallbackId r <> 0%N -> currentGate r = None ->
  gateQueue r = gate :: rest ->
  let t := easedProgress (popTime env) (frameTime env) in
  exists r' frame,
    stepOp (OpFrame env) r = (r', Some frame) /\
    (frGate frame, frPopped frame, frProgress frame) = (gate, true, t) /\
    animationCallbackId r' <> 0%N /\ gateQueue r' = rest /\
    startTime r' = popTime env /\
    currentGate r' = (if Rge_dec t 1 then None else Some gate).
Proof.
  intros Hid Hc Hq t. simpl. unfold animationFrame.
  destruct (N.eqb_spec (animationCallbackId r) 0); [contradiction |].
  destruct (processQueue_fields env r gate (popTime env) rest true)
    as (r' & frame & -> & Hg & Hp & _ & Ht & Hid' & Hq' & Hs & Hc').
  { unfold nextGate. now rewrite Hc, Hq. }
  exists r', frame. rewrite Hg, Hp, Ht.
  split_and!; auto. rewrite Hid'. discriminate.
Qed.

Lemma frame_drains (env : FrameEnv) (r : BlochRenderer) :
  animationCallbackId r <> 0%N -> currentGate r = None -> gateQueue r = [] ->
  exists r', stepOp (OpFrame env) r = (r', None) /\ Idle r'.
Proof.
  intros Hid Hc Hq. simpl. unfold animationFrame.
  destruct (N.eqb_spec (animationCallbackId r) 0); [contradiction |].
  rewrite processQueue_idle by (unfold nextGate; now rewrite Hc, Hq).
  eexists. split; [reflexivity |]. unfold Idle. simpl. auto.
Qed.

Lemma queue_starts (env : FrameEnv) (r : BlochRenderer) (gate : AppliedGate) :
  animationCallbackId r = 0%N -> gateQueue r = [] ->
  let t := easedProgress (popTime env) (frameTime env) in
  exists r' frame,
    stepOp (OpQueue env gate) r = (r', Some frame) /\
    (frGate frame, frPopped frame, frProgress frame) = (gate, true, t) /\
    animationCallbackId r' <> 0%N /\ gateQueue r' = [] /\
    startTime r' = popTime env /\
    currentGate r' = (if Rge_dec t 1 then None else Some gate).
Proof.
  intros Hid Hq t. simpl. rewrite queueGate_idle by exact Hid. rewrite Hq.
  match goal with |- context [processQueue env ?r0] =>
    destruct (processQueue_fields env r0 gate (popTime env) [] true eq_refl)
      as (r' & frame & -> & Hg & Hp & _ & Ht & Hid' & Hq' & Hs & Hc')
  end.
  exists r', frame. rewrite Hg, Hp, Ht.
  split_and!; auto. rewrite Hid'. discriminate.
Qed.

Lemma queue_appends (env : FrameEnv) (r : BlochRenderer) (gate : AppliedGate) :
  animationCallbackId r <> 0%N ->
  exists r',
    stepOp (OpQueue env gate) r = (r', None) /\
    animationCallbackId r' <> 0%N /\ gateQueue r' = gateQueue r ++ [gate] /\
    startTime r' = startTime r /\ currentGate r' = currentGate r.
Proof.
  intros Hid. simpl. rewrite queueGate_running by exact Hid.
  eexists. split; [reflexivity |]. simpl. auto.
Qed.

(** The gates X, Y, Z of the spec's test, queued in rapid succession and
    then animated: each is taken from the queue at progress 0 and runs to
    progress 1 before the next is taken; then the queue is [Idle]. *)
Lemma three_gates_in_rapid_succession (g1 g2 g3 : AppliedGate) :
  let at_ := fun t => mkFrameEnv t t 1 in
  let ops := [OpQueue (at_ 0) g1; OpQueue (at_ 10) g2; OpQueue (at_ 20) g3;
              OpFrame (at_ 750); OpFrame (at_ 760); OpFrame (at_ 1510);
              OpFrame (at_ 1520); OpFrame (at_ 2270); OpFrame (at_ 2280)] in
  map (fun f => (frGate f, frPopped f, frProgress f))
      (snd (runOps ops newBlochRenderer)) =
    [(g1, true, 0); (g1, false, 1); (g2, true, 0); (g2, false, 1);
     (g3, true, 0); (g3, false, 1)] /\
  Idle (fst (runOps ops newBlochRenderer)).
Proof.
  intros at_ ops. subst ops.
  destruct (queue_starts (at_ 0) newBlochRenderer g1 eq_refl eq_refl)
    as (r1 & f1 & S1 & V1 & I1 & Q1 & T1 & C1).
  simpl in V1, C1, T1. rewrite easedProgress_at_start in V1, C1.
  destruct (Rge_dec 0 1) as [? | _]; [lra |].
  destruct (queue_appends (at_ 10) r1 g2 I1) as (r2 & S2 & I2 & Q2 & T2 & C2).
  destruct (queue_appends (at_ 20) r2 g3 I2) as (r3 & S3 & I3 & Q3 & T3 & C3).
  rewrite Q1 in Q2. rewrite Q2 in Q3. simpl in Q3.
  rewrite C1 in C2. rewrite C2 in C3. rewrite T1 in T2. rewrite T2 in T3.
  destruct (frame_continues (at_ 750) r3 g1 I3 C3)
    as (r4 & f4 & S4 & V4 & I4 & Q4 & T4 & C4).
  rewrite T3 in V4, C4. simpl in V4, C4.
  rewrite easedProgress_done in V4, C4 by lra.
  destruct (Rge_dec 1 1) as [_ | ?]; [| lra].
  rewrite Q3 in Q4.
  destruct (frame_pops (at_ 760) r4 g2 [g3] I4 C4 Q4)
    as (r5 & f5 & S5 & V5 & I5 & Q5 & T5 & C5).
  simpl in V5, C5, T5. rewrite easedProgress_at_start in V5, C5.
  destruct (Rge_dec 0 1) as [? | _]; [lra |].
  destruct (frame_continues (at_ 1510) r5 g2 I5 C5)
    as (r6 & f6 & S6 & V6 & I6 & Q6 & T6 & C6).
  rewrite T5 in V6, C6. simpl in V6, C6.
  rewrite easedProgress_done in V6, C6 by lra.
  destruct (Rge_dec 1 1) as [_ | ?]; [| lra].
  rewrite Q5 in Q6.
  destruct (frame_pops (at_ 1520) r6 g3 [] I6 C6 Q6)
    as (r7 & f7 & S7 & V7 & I7 & Q7 & T7 & C7).
  simpl in V7, C7, T7. rewrite easedProgress_at_start in V7, C7.
  destruct (Rge_dec 0 1) as [? | _]; [lra |].
  destruct (frame_continues (at_ 2270) r7 g3 I7 C7)
    as (r8 & f8 & S8 & V8 & I8 & Q8 & T8 & C8).
  rewrite T7 in V8, C8. simpl in V8, C8.
  rewrite easedProgress_done in V8, C8 by lra.
  destruct (Rge_dec 1 1) as [_ | ?]; [| lra].
  rewrite Q7 in Q8.
  destruct (frame_drains (at_ 2280) r8 I8 C8 Q8) as (r9 & S9 & Hidle).
  rewrite (runOps_cons _ _ _ _ _ S1), (runOps_cons _ _ _ _ _ S2),
    (runOps_cons _ _ _ _ _ S3), (runOps_cons _ _ _ _ _ S4),
    (runOps_cons _ _ _ _ _ S5), (runOps_cons _ _ _ _ _ S6),
    (runOps_cons _ _ _ _ _ S7), (runOps_cons _ _ _ _ _ S8),
    (runOps_cons _ _ _ _ _ S9).
  simpl. rewrite V1, V4, V5, V6, V7, V8. split; [reflexivity | exact Hidle].
Qed.

End Proofs.

(** *** More on the easing curve and the progress of a gate *)

Lemma easedProgress_ge_0 (start now : R) : 0 <= easedProgress start now.
Proof.
  unfold easedProgress. destruct (Rlt_dec _ 1); [| lra].
  unfold easeInOutSine.
  pose proof (COS_bound (PI * ((now - start) / rotationTimeMs))). lra.
Qed.

Lemma easedProgress_mono (start now1 now2 : R) :
  start <= now1 -> now1 <= now2 ->
  easedProgress start now1 <= easedProgress start now2.
Proof.
  intros H1 H2. unfold easedProgress, rotationTimeMs.
  destruct (Rlt_dec ((now1 - start) / 750) 1) as [Hx1 | Hx1];
    destruct (Rlt_dec ((now2 - start) / 750) 1) as [Hx2 | Hx2].
  - apply easeInOutSine_mono; lra.
  - apply easeInOutSine_le_1.
  - lra.
  - lra.
Qed.

(** X7: the progress of a gate read at a time not before its start is within
    [0, 1], is 0 at the start, does not go back as the clock advances, and
    is 1 once 750 ms have passed since the start. *)
Theorem easedProgress_runs_from_0_to_1 (start now later : R) :
  start <= now -> now <= later ->
  0 <= easedProgress start now <= 1 /\
  easedProgress start start = 0 /\
  easedProgress start now <= easedProgress start later /\
  (start + 750 <= now -> easedProgress start now = 1).
Proof.
  intros H1 H2. split_and!.
  - apply easedProgress_ge_0.
  - apply easedProgress_le_1.
  - apply easedProgress_at_start.
  - now apply easedProgress_mono.
  - apply easedProgress_done.
Qed.

Lemma easedProgress_runs_from_0_to_1_witness :
  0 <= 750 /\ 750 <= 800 /\
  easedProgress 0 750 <= easedProgress 0 800 /\
  easedProgress 0 750 = 1.
Proof.
  split; [lra |]. split; [lra |].
  destruct (easedProgress_runs_from_0_to_1 0 750 800) as (_ & _ & Hm & Hc);
    [lra | lra |].
  split; [exact Hm | apply Hc; lra].
Defined.

(** *** Colours *)

Lemma hueToRgb_between (p q t : R) :
  p <= q -> -1 <= t -> t <= 2 -> p <= hueToRgb p q t <= q.
Proof.
  intros Hpq Ht1 Ht2. unfold hueToRgb.
  destruct (Rlt_dec t 0) as [H0 | H0].
  - destruct (Rgt_dec (t + 1) 1) as [H1 | H1]; [lra |].
    repeat (destruct (Rlt_dec _ _)); split; nra.
  - destruct (Rgt_dec t 1) as [H1 | H1];
      repeat (destruct (Rlt_dec _ _)); split; nra.
Qed.

(** X9: for [p <= q] and an argument from -1 to 2 (a hue in [0, 1] shifted by
    a third either way is one), [hueToRgb] returns a value between [p] and
    [q]. *)
Theorem hueToRgb_stays_between (p q t : R) :
  p <= q -> -1 <= t -> t <= 2 -> p <= hueToRgb p q t <= q.
Proof. exact (hueToRgb_between p q t). Qed.

Lemma hueToRgb_stays_between_witness :
  0 <= 1 /\ -1 <= 6 / 10 + 1 / 3 /\ 6 / 10 + 1 / 3 <= 2 /\
  0 <= hueToRgb 0 1 (6 / 10 + 1 / 3) <= 1.
Proof.
  split; [lra |]. split; [lra |]. split; [lra |].
  apply (hueToRgb_stays_between 0 1 (6 / 10 + 1 / 3)); lra.
Defined.

Lemma lor_pow2_add (hi lo n : Z) :
  (0 <= n -> 0 <= lo < 2 ^ n -> Z.lor (hi * 2 ^ n) lo = hi * 2 ^ n + lo)%Z.
Proof.
  intros Hn Hlo.
  assert (Hl : Z.land (hi * 2 ^ n) lo = 0%Z).
  { apply Z.bits_inj'. intros i Hi. rewrite Z.land_spec, Z.bits_0.
    destruct (Z.lt_ge_cases i n) as [Hlt | Hge].
    - rewrite Z.mul_pow2_bits_low by lia. reflexivity.
    - rewrite <- (Z.mod_small lo (2 ^ n)) by lia.
      rewrite Z.mod_pow2_bits_high by lia. apply Bool.andb_false_r. }
  rewrite <- Z.lxor_lor by exact Hl. symmetry. now apply Z.add_nocarry_lxor.
Qed.

Lemma wrap32_small (z : Z) : (- 2 ^ 31 <= z < 2 ^ 31)%Z -> wrap32 z = z.
Proof. intros H. unfold wrap32. rewrite Z.mod_small; lia. Qed.

(** A colour channel in [0, 1], scaled and truncated, is a byte. *)
Lemma channel_byte (x : R) :
  0 <= x <= 1 ->
  toInt32 (Rmin (x * 255) 255) = Int_part (x * 255) /\
  (0 <= Int_part (x * 255) <= 255)%Z.
Proof.
  intros [H0 H1].
  destruct (base_Int_part (x * 255)) as [Hlo Hhi].
  assert (Hb : (0 <= Int_part (x * 255) <= 255)%Z).
  { split.
    - assert (IZR (-1) < IZR (Int_part (x * 255))) by (simpl; lra).
      apply lt_IZR in H. lia.
    - apply le_IZR. simpl. lra. }
  split; [| exact Hb].
  unfold toInt32, truncZ. rewrite Rmin_left by lra.
  destruct (Rle_dec 0 (x * 255)) as [_ | Hn]; [| exfalso; apply Hn; lra].
  apply wrap32_small. lia.
Qed.

Lemma pack_rgb (r g b : R) :
  0 <= r <= 1 -> 0 <= g <= 1 -> 0 <= b <= 1 ->
  Z.lor (Z.lor (shl32 (Rmin (r * 255) 255) 16) (shl32 (Rmin (g * 255) 255) 8))
        (toInt32 (Rmin (b * 255) 255)) =
    (Int_part (r * 255) * 65536 + Int_part (g * 255) * 256 + Int_part (b * 255))%Z.
Proof.
  intros Hr Hg Hb.
  destruct (channel_byte r Hr) as [Er Br].
  destruct (channel_byte g Hg) as [Eg Bg].
  destruct (channel_byte b Hb) as [Eb Bb].
  assert (S1 : shl32 (Rmin (r * 255) 255) 16 = (Int_part (r * 255) * 2 ^ 16)%Z).
  { unfold shl32. rewrite Er, Z.shiftl_mul_pow2 by lia. apply wrap32_small. lia. }
  assert (S2 : shl32 (Rmin (g * 255) 255) 8 = (Int_part (g * 255) * 2 ^ 8)%Z).
  { unfold shl32. rewrite Eg, Z.shiftl_mul_pow2 by lia. apply wrap32_small. lia. }
  rewrite S1, S2, Eb.
  rewrite (lor_pow2_add _ (Int_part (g * 255) * 2 ^ 8) 16) by lia.
  replace (Int_part (r * 255) * 2 ^ 16 + Int_part (g * 255) * 2 ^ 8)%Z
    with ((Int_part (r * 255) * 256 + Int_part (g * 255)) * 2 ^ 8)%Z by lia.
  rewrite lor_pow2_add by lia. lia.
Qed.

Lemma hsl_channels (h s l : R) :
  0 <= h <= 1 -> 0 <= s <= 1 -> 0 <= l <= 1 ->
  let q := if Rlt_dec l (1 / 2) then l * (1 + s) else l + s - l * s in
  let p := 2 * l - q in
  0 <= p /\ p <= q /\ q <= 1.
Proof.
  intros Hh Hs Hl. cbv zeta.
  destruct (Rlt_dec l (1 / 2)); split_and!; nra.
Qed.

Lemma hslToRgb_packed (h s l : R) :
  0 <= h <= 1 -> 0 <= s <= 1 -> 0 <= l <= 1 ->
  exists red green blue : Z,
    (0 <= red <= 255)%Z /\ (0 <= green <= 255)%Z /\ (0 <= blue <= 255)%Z /\
    hslToRgb h s l = (red * 65536 + green * 256 + blue)%Z /\
    (0 <= hslToRgb h s l <= 0xFFFFFF)%Z.
Proof.
  intros Hh Hs Hl.
  assert (Hpack : forall r g b, 0 <= r <= 1 -> 0 <= g <= 1 -> 0 <= b <= 1 ->
    exists red green blue : Z,
      (0 <= red <= 255)%Z /\ (0 <= green <= 255)%Z /\ (0 <= blue <= 255)%Z /\
      Z.lor (Z.lor (shl32 (Rmin (r * 255) 255) 16) (shl32 (Rmin (g * 255) 255) 8))
            (toInt32 (Rmin (b * 255) 255)) =
        (red * 65536 + green * 256 + blue)%Z /\
      (0 <= Z.lor (Z.lor (shl32 (Rmin (r * 255) 255) 16)
                         (shl32 (Rmin (g * 255) 255) 8))
                  (toInt32 (Rmin (b * 255) 255)) <= 0xFFFFFF)%Z).
  { intros r g b Hr Hg Hb.
    exists (Int_part (r * 255)), (Int_part (g * 255)), (Int_part (b * 255)).
    destruct (channel_byte r Hr) as [_ Br].
    destruct (channel_byte g Hg) as [_ Bg].
    destruct (channel_byte b Hb) as [_ Bb].
    rewrite (pack_rgb r g b Hr Hg Hb). split_and!; lia. }
  unfold hslToRgb.
  destruct (Req_dec_T s 0) as [_ | _].
  - apply Hpack; exact Hl.
  - destruct (hsl_channels h s l Hh Hs Hl) as (Hp & Hpq & Hq).
    cbv zeta in Hp, Hpq, Hq.
    set (q := if Rlt_dec l (1 / 2) then l * (1 + s) else l + s - l * s) in *.
    pose proof (hueToRgb_between (2 * l - q) q (h + 1 / 3) Hpq) as H1.
    pose proof (hueToRgb_between (2 * l - q) q h Hpq) as H2.
    pose proof (hueToRgb_between (2 * l - q) q (h - 1 / 3) Hpq) as H3.
    apply Hpack; lra.
Qed.

Lemma hslToRgb_range (h s l : R) :
  0 <= h <= 1 -> 0 <= s <= 1 -> 0 <= l <= 1 ->
  (0 <= hslToRgb h s l <= 0xFFFFFF)%Z.
Proof.
  intros Hh Hs Hl.
  destruct (hslToRgb_packed h s l Hh Hs Hl) as (_ & _ & _ & _ & _ & _ & _ & H).
  exact H.
Qed.

(** X10: for a hue, saturation and lightness in [0, 1], [hslToRgb] returns a
    24-bit colour [0xRRGGBB]: three channels from 0 to 255 packed into a
    number from 0 to [0xFFFFFF]. *)
Theorem hslToRgb_is_24_bit (h s l : R) :
  0 <= h <= 1 -> 0 <= s <= 1 -> 0 <= l <= 1 ->
  exists red green blue : Z,
    (0 <= red <= 255)%Z /\ (0 <= green <= 255)%Z /\ (0 <= blue <= 255)%Z /\
    hslToRgb h s l = (red * 65536 + green * 256 + blue)%Z /\
    (0 <= hslToRgb h s l <= 0xFFFFFF)%Z.
Proof. exact (hslToRgb_packed h s l). Qed.

Lemma hslToRgb_is_24_bit_witness :
  exists red green blue : Z,
    (0 <= red <= 255)%Z /\ (0 <= green <= 255)%Z /\ (0 <= blue <= 255)%Z /\
    hslToRgb (6 / 10) 1 (1 / 2) = (red * 65536 + green * 256 + blue)%Z.
Proof.
  destruct (hslToRgb_is_24_bit (6 / 10) 1 (1 / 2))
    as (red & green & blue & Hr & Hg & Hb & He & _); [lra | lra | lra |].
  now exists red, green, blue.
Defined.

(** X11: without saturation the colour is a grey that does not depend on the
    hue: for a lightness in [0, 1] the three channels are one and the same
    byte. *)
Theorem hslToRgb_achromatic (l : R) :
  0 <= l <= 1 ->
  exists v : Z,
    (0 <= v <= 255)%Z /\
    forall h, hslToRgb h 0 l = (v * 65536 + v * 256 + v)%Z.
Proof.
  intros Hl. exists (Int_part (l * 255)).
  split; [apply (channel_byte l Hl) |].
  intros h. unfold hslToRgb.
  destruct (Req_dec_T 0 0) as [_ | Hn]; [| contradiction].
  now apply pack_rgb.
Qed.

Lemma hslToRgb_achromatic_witness :
  0 <= 1 <= 1 /\
  exists v : Z,
    (0 <= v <= 255)%Z /\
    hslToRgb (6 / 10) 0 1 = (v * 65536 + v * 256 + v)%Z /\
    hslToRgb 0 0 1 = hslToRgb (6 / 10) 0 1.
Proof.
  assert (H : 0 <= 1 <= 1) by lra.
  split; [exact H |].
  destruct (hslToRgb_achromatic 1 H) as (v & Hv & Hh).
  exists v. split; [exact Hv |]. split; [apply Hh |].
  now rewrite !Hh.
Defined.

Section MoreProofs.
Context {three : Three} {cplxjs : CplxJs}.

(** *** How long a gate stays active *)

(** X8: a frame of the active gate read 750 ms or more after the gate's start
    shows the gate at progress 1 and ends it: afterwards no gate is
    active, and the pending gates and the start time are as before. *)
Theorem frame_ends_gate_after_750ms
    (env : FrameEnv) (r : BlochRenderer) (gate : AppliedGate) :
  currentGate r = Some gate ->
  startTime r + 750 <= frameTime env ->
  exists r' frame,
    processQueue env r = (r', Some frame) /\
    frGate frame = gate /\ frPopped frame = false /\ frProgress frame = 1 /\
    currentGate r' = None /\
    gateQueue r' = gateQueue r /\ startTime r' = startTime r.
Proof.
  intros Hc Hs.
  destruct (processQueue_fields env r gate (startTime r) (gateQueue r) false)
    as (r' & frame & Hstep & Hg & Hp & _ & Ht & _ & Hq & Hst & Hc').
  { unfold nextGate. now rewrite Hc. }
  rewrite (easedProgress_done _ _ Hs) in Ht, Hc'.
  destruct (Rge_dec 1 1) as [_ | Hn]; [| lra].
  exists r', frame. split_and!; assumption.
Qed.

(** *** The trail *)

Lemma fadeTrail_fmap {A : Type} (f : Mesh -> A) (children : list Mesh) :
  (forall n idx ball, f (fadeBall n idx ball) = f ball) ->
  map f (fadeTrail children) = map f children.
Proof.
  intros Hf. apply list_eq. intros i. unfold fadeTrail.
  change (map f) with (fmap (M := list) f).
  rewrite !list_lookup_fmap, list_lookup_imap.
  destruct (children !! i); simpl; [now rewrite Hf | reflexivity].
Qed.

Lemma fadeTrail_idempotent (children : list Mesh) :
  fadeTrail (fadeTrail children) = fadeTrail children.
Proof.
  apply list_eq. intros i. unfold fadeTrail.
  rewrite !list_lookup_imap, length_imap.
  destruct (children !! i); reflexivity.
Qed.

(** X12: the fade restyles and nothing else: it keeps the number, the order,
    the identities and the positions of the trail entries, and since the
    style depends on the place in the trail only, fading again changes
    nothing. *)
Theorem fadeTrail_only_restyles (children : list Mesh) :
  length (fadeTrail children) = length children /\
  map meshId (fadeTrail children) = map meshId children /\
  map position (fadeTrail children) = map position children /\
  fadeTrail (fadeTrail children) = fadeTrail children.
Proof.
  split_and!.
  - apply fadeTrail_length.
  - now apply fadeTrail_fmap.
  - now apply fadeTrail_fmap.
  - apply fadeTrail_idempotent.
Qed.

Lemma fadeWeight_positive (n idx : nat) :
  (idx < n)%nat -> 0 < fadeWeight n idx <= 1.
Proof.
  intros Hidx. unfold fadeWeight, easeOutSine.
  pose proof PI_RGT_0 as Hpi.
  assert (Hn : 0 < INR n) by (apply lt_0_INR; lia).
  assert (Hi : 0 < INR (idx + 1)) by (apply lt_0_INR; lia).
  assert (Hle : INR (idx + 1) <= INR n) by (apply le_INR; lia).
  assert (Hx0 : 0 < INR (idx + 1) / INR n) by now apply Rdiv_lt_0_compat.
  assert (Hx1 : INR (idx + 1) / INR n <= 1).
  { apply (Rmult_le_reg_r (INR n)); [exact Hn |].
    unfold Rdiv. rewrite Rmult_assoc, Rinv_l by lra. lra. }
  split.
  - apply sin_gt_0; nra.
  - pose proof (SIN_bound (INR (idx + 1) / INR n * PI / 2)). lra.
Qed.

(** X13: after every frame that animates a gate each trail marker is visible
    and well formed: its scale is the same on the three axes and lies in
    (1/2, 3/2], and its colour is a 24-bit colour. *)
Theorem frame_leaves_markers_visible
    (env : FrameEnv) (r r' : BlochRenderer) (frame : Frame)
    (idx : nat) (ball : Mesh) :
  processQueue env r = (r', Some frame) ->
  trail r' !! idx = Some ball ->
  exists size,
    scale ball = (size, size, size) /\ 1 / 2 < size <= 3 / 2 /\
    (0 <= color ball <= 0xFFFFFF)%Z.
Proof.
  intros Hstep Hball.
  destruct (processQueue_trail_faded _ _ _ _ Hstep) as [children Hc].
  rewrite Hc in Hball.
  pose proof (lookup_lt_Some _ _ _ Hball) as Hlt.
  rewrite fadeTrail_length in Hlt.
  apply fadeTrail_lookup in Hball as [ball0 [_ ->]].
  destruct (fadeWeight_positive (length children) idx Hlt) as [Hw0 Hw1].
  exists (fadeWeight (length children) idx + 1 / 2). simpl.
  split; [reflexivity |]. split; [lra |].
  apply hslToRgb_range; lra.
Qed.

(** *** Drawing twice *)

Lemma drawPath_marked (path : list nat) (d : Drawing) :
  (forall k, k ∈ path -> ~ unmarked (dStore d) k) -> drawPath path d = d.
Proof.
  revert d. induction path as [| k path IH]; intros d H; [reflexivity |].
  change (drawPath (k :: path) d) with (drawPath path (drawEntry d k)).
  rewrite drawEntry_marked by (apply H; left).
  apply IH. intros k' Hk'. apply H. now right.
Qed.

Lemma drawPath_leaves_none_unmarked (path : list nat) (d : Drawing) (k : nat) :
  k ∈ path -> ~ unmarked (dStore (drawPath path d)) k.
Proof.
  intros Hk.
  destruct (drawPath_spec path d)
    as (keys & markers & _ & Hin & Hf & _ & _ & _ & Hsame).
  destruct (decide (k ∈ keys)) as [Hkeys | Hkeys].
  - apply list_elem_of_lookup in Hkeys as [i Hi].
    destruct (Forall2_lookup_l _ _ _ _ _ Hf Hi) as (ball & _ & entry & _ & _ & _ & Ha).
    intros [e [He Hr]]. rewrite Ha in He. injection He as <-. discriminate.
  - intros [e [He Hr]]. rewrite (Hsame k Hkeys) in He.
    apply Hkeys, Hin. split; [exact Hk | now exists e].
Qed.

Lemma drawPath_marks_all (path : list nat) (d : Drawing) (k : nat)
    (entry : PathEntry) :
  k ∈ path -> dStore d !! k = Some entry ->
  exists marker,
    dStore (drawPath path d) !! k = Some (mkPathEntry (pos entry) (Some marker)).
Proof.
  intros Hk He.
  destruct (drawPath_spec path d)
    as (keys & markers & _ & Hin & Hf & _ & _ & _ & Hsame).
  destruct (decide (k ∈ keys)) as [Hkeys | Hkeys].
  - apply list_elem_of_lookup in Hkeys as [i Hi].
    destruct (Forall2_lookup_l _ _ _ _ _ Hf Hi)
      as (ball & _ & entry' & He' & _ & _ & Ha).
    rewrite He in He'. injection He' as <-. eauto.
  - rewrite (Hsame k Hkeys), He.
    destruct entry as [q [marker |]]; simpl; [eauto |].
    exfalso. apply Hkeys, Hin. split; [exact Hk |].
    eexists. split; [exact He | reflexivity].
Qed.

(** X14: after the path is drawn every keyframe of the path has its marker
    (with its orientation as before), so drawing the same path again
    creates nothing: neither the keyframes nor the trail change the second
    time. *)
Theorem drawPath_again_draws_nothing (path : list nat) (d : Drawing) :
  (forall k entry, k ∈ path -> dStore d !! k = Some entry ->
     exists marker,
       dStore (drawPath path d) !! k =
         Some (mkPathEntry (pos entry) (Some marker))) /\
  drawPath path (drawPath path d) = drawPath path d.
Proof.
  split.
  - intros k entry. apply drawPath_marks_all.
  - apply drawPath_marked. intros k Hk.
    now apply drawPath_leaves_none_unmarked.
Qed.

(** *** What the operations do to the trail *)

Lemma processQueue_trail (env : FrameEnv) (r r' : BlochRenderer)
    (frame : option Frame) :
  processQueue env r = (r', frame) ->
  exists added, map placed (trail r') = map placed (trail r) ++ added.
Proof.
  intros H. destruct frame as [frame |].
  - destruct (processQueue_frame_result _ _ _ _ H) as (_ & -> & _).
    match goal with |- context [drawPath ?path ?d] =>
      destruct (drawPath_spec path d) as (_ & markers & _ & _ & _ & _ & -> & _)
    end. simpl.
    exists (map placed markers).
    rewrite fadeTrail_fmap by reflexivity. apply map_app.
  - destruct (nextGate env r) as [[[[gate start] queue] popped] |] eqn:Hn.
    + rewrite (processQueue_gate _ _ _ _ _ _ Hn) in H. discriminate.
    + rewrite (processQueue_idle _ _ Hn) in H. injection H as <-.
      exists []. simpl. now rewrite app_nil_r.
Qed.

(** X15: markers stay until a reset: queueing a gate or running a frame keeps
    every marker of the trail at its place in the trail, with its identity
    and its position, and can only add markers behind them; a reset
    removes them all. *)
Theorem trail_grows_until_reset
    (op : Op) (r r' : BlochRenderer) (frame : option Frame) :
  stepOp op r = (r', frame) ->
  match op with
  | OpReset => trail r' = []
  | _ => exists added, map placed (trail r') = map placed (trail r) ++ added
  end.
Proof.
  intros H. destruct op as [env gate | env |]; simpl in H.
  - unfold queueGate in H.
    destruct (N.eqb (animationCallbackId r) 0).
    + exact (processQueue_trail _ _ _ _ H).
    + injection H as <- _. exists []. simpl. now rewrite app_nil_r.
  - unfold animationFrame in H.
    destruct (N.eqb (animationCallbackId r) 0).
    + injection H as <- _. exists []. now rewrite app_nil_r.
    + exact (processQueue_trail _ _ _ _ H).
  - injection H as <- _. apply reset_fields.
Qed.

(** *** The queue never strands a gate *)

(** X16: after any operations on a new renderer: if a gate is pending or
    active, a frame callback is scheduled. *)
Theorem pending_work_has_a_frame_scheduled (ops : list Op) :
  let r := fst (runOps ops newBlochRenderer) in
  (gateQueue r <> [] \/ currentGate r <> None) ->
  animationCallbackId r <> 0%N.
Proof.
  intros r Hwork Hid.
  destruct (runOps_invariants ops newBlochRenderer None) as (Hidle & _).
  - intros _. split; reflexivity.
  - intros f Hf. discriminate Hf.
  - destruct (Hidle Hid) as [Hq Hc]. fold r in Hq, Hc.
    destruct Hwork as [H | H]; contradiction.
Qed.

(** X17: queueing a gate on an idle renderer starts the gate in the same call:
    the gate is taken from the queue at once, a frame for it is published
    with the progress of the elapsed time since the pop, nothing stays
    pending and a frame callback is scheduled. *)
Theorem queueGate_on_idle_starts_the_gate
    (env : FrameEnv) (gate : AppliedGate) (r : BlochRenderer) :
  Idle r ->
  exists r' frame,
    queueGate env gate r = (r', Some frame) /\
    frGate frame = gate /\ frPopped frame = true /\
    frStart frame = popTime env /\
    frProgress frame = easedProgress (popTime env) (frameTime env) /\
    gateQueue r' = [] /\ startTime r' = popTime env /\
    animationCallbackId r' = Npos (handle env) /\
    currentGate r' =
      (if Rge_dec (easedProgress (popTime env) (frameTime env)) 1
       then None else Some gate).
Proof.
  intros (Hid & Hq & _).
  rewrite queueGate_idle by exact Hid. rewrite Hq.
  match goal with |- context [processQueue env ?r0] =>
    destruct (processQueue_fields env r0 gate (popTime env) [] true eq_refl)
      as (r' & frame & Hstep & Hg & Hp & Hs & Ht & Hid' & Hq' & Hst & Hc')
  end.
  exists r', frame. auto 10.
Qed.

(** X18: the frame that finds nothing to do only clears the callback id: the
    renderer is otherwise as it was, and nothing is published. *)
Theorem frame_on_empty_queue_goes_idle (env : FrameEnv) (r : BlochRenderer) :
  animationCallbackId r <> 0%N -> currentGate r = None -> gateQueue r = [] ->
  animationFrame env r =
    (mkBlochRenderer (rotations r) (pathStore r) (qubit r) (trail r)
       (nextMeshId r) 0 [] None (startTime r),
     None) /\
  Idle (fst (animationFrame env r)).
Proof.
  intros Hid Hc Hq. unfold animationFrame.
  destruct (N.eqb_spec (animationCallbackId r) 0); [contradiction |].
  rewrite processQueue_idle by (unfold nextGate; now rewrite Hc, Hq).
  rewrite Hq. split; [reflexivity |]. unfold Idle. simpl. auto.
Qed.

(** *** The histories of the component *)

Lemma rotate_gates (env : FrameEnv) (gate : string) (c : BlochSphere) :
  gates (fst (rotate env gate c)) = gates c ++ [gate].
Proof.
  unfold rotate. destruct (renderer c) as [r |]; [| reflexivity].
  repeat (destruct (String.eqb gate _); [reflexivity |]). reflexivity.
Qed.

Lemma gates_of_run (evs : list Event) (c : BlochSphere) :
  gates (runEvents evs c) =
    match afterLastReset evs with
    | Some later => rotateNames later
    | None => gates c ++ rotateNames evs
    end.
Proof.
  revert c. induction evs as [| ev evs IH]; intros c.
  - simpl. now rewrite app_nil_r.
  - change (runEvents (ev :: evs) c) with (runEvents evs (stepEvent ev c)).
    rewrite IH. simpl. destruct (afterLastReset evs); [reflexivity |].
    destruct ev as [env gate | | env]; simpl.
    + rewrite rotate_gates. now rewrite <- app_assoc.
    + reflexivity.
    + reflexivity.
Qed.

(** X20: the gate-name history is the list of the names passed to [rotate]
    since the last reset, in order, whether [rotate] knows them or not;
    if there was no reset they follow the names the component was given. *)
Theorem gates_are_the_names_since_reset
    (propsGates : option (list string)) (evs : list Event) :
  gates (runEvents evs (mounted propsGates)) =
    match afterLastReset evs with
    | Some later => rotateNames later
    | None => default [] propsGates ++ rotateNames evs
    end.
Proof. apply gates_of_run. Qed.

Lemma recognizedB_cases (gate : string) :
  recognizedB gate =
    (String.eqb gate "X" || String.eqb gate "Y" || String.eqb gate "Z" ||
     String.eqb gate "S" || String.eqb gate "T" || String.eqb gate "H").
Proof. unfold recognizedB. simpl. now rewrite orb_false_r, !orb_assoc. Qed.

Lemma rotate_gateArray (env : FrameEnv) (gate : string) (c : BlochSphere) :
  renderer c <> None ->
  renderer (fst (rotate env gate c)) <> None /\
  length (gateArray (fst (rotate env gate c))) =
    (length (gateArray c) + (if recognizedB gate then 1 else 0))%nat.
Proof.
  intros Hr. rewrite recognizedB_cases. unfold rotate.
  destruct (renderer c) as [r |]; [| contradiction].
  repeat (destruct (String.eqb gate _);
          [simpl; rewrite length_app; simpl; split; [discriminate | lia] |]).
  simpl. split; [discriminate | lia].
Qed.

Lemma gateArray_of_run (evs : list Event) (c : BlochSphere) :
  renderer c <> None ->
  length (gateArray (runEvents evs c)) =
    match afterLastReset evs with
    | Some later => length (List.filter recognizedB (rotateNames later))
    | None => (length (gateArray c) +
               length (List.filter recognizedB (rotateNames evs)))%nat
    end.
Proof.
  revert c. induction evs as [| ev evs IH]; intros c Hr.
  - simpl. lia.
  - change (runEvents (ev :: evs) c) with (runEvents evs (stepEvent ev c)).
    assert (Hr' : renderer (stepEvent ev c) <> None).
    { destruct ev as [env gate | | env]; simpl.
      - now apply rotate_gateArray.
      - destruct (renderer c); [discriminate | contradiction].
      - destruct (renderer c); [discriminate | contradiction]. }
    rewrite (IH _ Hr'). cbn [afterLastReset].
    destruct (afterLastReset evs); [reflexivity |].
    destruct ev as [env gate | | env].
    + change (stepEvent (EvRotate env gate) c) with (fst (rotate env gate c)).
      rewrite (proj2 (rotate_gateArray env gate c Hr)).
      change (rotateNames (EvRotate env gate :: evs))
        with (gate :: rotateNames evs).
      cbn [List.filter]. destruct (recognizedB gate); cbn [length]; lia.
    + reflexivity.
    + reflexivity.
Qed.

(** X21: the LaTeX history has one entry for each name since the last reset
    that [rotate] has a case for; the other names leave no entry. *)
Theorem gateArray_counts_the_recognized_names
    (propsGates : option (list string)) (evs : list Event) :
  length (gateArray (runEvents evs (mounted propsGates))) =
    length (List.filter recognizedB
              (rotateNames (default evs (afterLastReset evs)))).
Proof.
  rewrite gateArray_of_run by discriminate.
  destruct (afterLastReset evs); reflexivity.
Qed.

(** *** The queue drains *)

Lemma animateAll_cons (h : positive) (a b : R) (times : list (R * R))
    (final : R) :
  animateAll h ((a, b) :: times) final =
    OpFrame (frameAt h a) :: OpFrame (frameAt h b) :: animateAll h times final.
Proof. reflexivity. Qed.

Lemma queue_drains_from (h : positive) (times : list (R * R)) (final : R)
    (r : BlochRenderer) :
  animationCallbackId r <> 0%N -> currentGate r = None ->
  length times = length (gateQueue r) ->
  Forall (fun ab => fst ab + 750 <= snd ab) times ->
  Idle (fst (runOps (animateAll h times final) r)) /\
  map (fun f => (frGate f, frPopped f, frProgress f))
      (snd (runOps (animateAll h times final) r)) =
    flat_map (fun gate => [(gate, true, 0); (gate, false, 1)]) (gateQueue r).
Proof.
  revert r. induction times as [| [a b] times IH]; intros r Hid Hc Hlen Hall.
  - destruct (gateQueue r) as [| g rest] eqn:Hq; [| discriminate].
    destruct (frame_drains (frameAt h final) r Hid Hc Hq) as (r' & S & Hidle).
    unfold animateAll. simpl flat_map. simpl app.
    rewrite (runOps_cons _ _ _ _ _ S). simpl. auto.
  - destruct (gateQueue r) as [| g rest] eqn:Hq; [discriminate |].
    apply Forall_cons in Hall as [Hab Hall]. simpl in Hab.
    destruct (frame_pops (frameAt h a) r g rest Hid Hc Hq)
      as (r1 & f1 & S1 & V1 & I1 & Q1 & T1 & C1).
    simpl in V1, C1, T1. rewrite easedProgress_at_start in V1, C1.
    destruct (Rge_dec 0 1) as [? | _]; [lra |].
    destruct (frame_continues (frameAt h b) r1 g I1 C1)
      as (r2 & f2 & S2 & V2 & I2 & Q2 & T2 & C2).
    rewrite T1 in V2, C2. simpl in V2, C2.
    rewrite easedProgress_done in V2, C2 by lra.
    destruct (Rge_dec 1 1) as [_ | ?]; [| lra].
    rewrite Q1 in Q2.
    destruct (IH r2 I2 C2) as [Hidle Hframes].
    { rewrite Q2. simpl in Hlen. lia. }
    { exact Hall. }
    rewrite animateAll_cons.
    rewrite (runOps_cons _ _ _ _ _ S1), (runOps_cons _ _ _ _ _ S2).
    simpl. rewrite V1, V2, Hframes, Q2. auto.
Qed.

(** X19: with no gate active and some gates pending, two frames per gate and
    one more drain the queue: each pending gate, in turn, is taken from
    the queue at progress 0 and then shown at progress 1, given that its
    second frame comes at least 750 ms after its first, and in the end the
    queue is [Idle]. *)
Theorem queue_drains (h : positive) (times : list (R * R)) (final : R)
    (r : BlochRenderer) :
  animationCallbackId r <> 0%N -> currentGate r = None ->
  length times = length (gateQueue r) ->
  Forall (fun ab => fst ab + 750 <= snd ab) times ->
  Idle (fst (runOps (animateAll h times final) r)) /\
  map (fun f => (frGate f, frPopped f, frProgress f))
      (snd (runOps (animateAll h times final) r)) =
    flat_map (fun gate => [(gate, true, 0); (gate, false, 1)]) (gateQueue r).
Proof. exact (queue_drains_from h times final r). Qed.

(** *** Gates in rapid succession *)

Lemma runOps_app (ops1 ops2 : list Op) (r : BlochRenderer) :
  runOps (ops1 ++ ops2) r =
    (fst (runOps ops2 (fst (runOps ops1 r))),
     snd (runOps ops1 r) ++ snd (runOps ops2 (fst (runOps ops1 r)))).
Proof.
  revert r. induction ops1 as [| op ops1 IH]; intros r; simpl.
  - now destruct (runOps ops2 r).
  - destruct (stepOp op r) as [r1 frame]. rewrite IH.
    destruct (runOps ops1 r1) as [r2 frames]. simpl.
    now rewrite app_assoc.
Qed.

Lemma queue_appends_all (rest : list (FrameEnv * AppliedGate))
    (r : BlochRenderer) :
  animationCallbackId r <> 0%N ->
  let run := runOps (map (fun eg => OpQueue (fst eg) (snd eg)) rest) r in
  snd run = [] /\
  animationCallbackId (fst run) <> 0%N /\
  gateQueue (fst run) = gateQueue r ++ map snd rest /\
  startTime (fst run) = startTime r /\ currentGate (fst run) = currentGate r.
Proof.
  revert r. induction rest as [| [env gate] rest IH]; intros r Hid; cbv zeta.
  - simpl. rewrite app_nil_r. auto.
  - destruct (queue_appends env r gate Hid) as (r1 & S1 & I1 & Q1 & T1 & C1).
    destruct (IH r1 I1) as (Hf & Hi & Hq & Ht & Hc).
    change (map (fun eg => OpQueue (fst eg) (snd eg)) ((env, gate) :: rest))
      with (OpQueue env gate :: map (fun eg => OpQueue (fst eg) (snd eg)) rest).
    rewrite (runOps_cons _ _ _ _ _ S1). simpl.
    rewrite Hf, Hq, Q1, Ht, T1, Hc, C1, <- app_assoc. auto.
Qed.

Lemma rapid_succession_run (h : positive) (t0 : R) (first : AppliedGate)
    (rest : list (FrameEnv * AppliedGate)) (done : R)
    (times : list (R * R)) (final : R) :
  t0 + 750 <= done ->
  length times = length rest ->
  Forall (fun ab => fst ab + 750 <= snd ab) times ->
  let run := runOps (rapidSuccession h t0 first rest done times final)
               newBlochRenderer in
  map frameView (snd run) =
    flat_map (fun gate => [(gate, true, 0); (gate, false, 1)])
             (first :: map snd rest) /\
  Idle (fst run).
Proof.
  intros Hdone Hlen Hall. cbv zeta. unfold rapidSuccession.
  destruct (queue_starts (frameAt h t0) newBlochRenderer first eq_refl eq_refl)
    as (r1 & f1 & S1 & V1 & I1 & Q1 & T1 & C1).
  simpl in V1, C1, T1. rewrite easedProgress_at_start in V1, C1.
  destruct (Rge_dec 0 1) as [? | _]; [lra |].
  destruct (queue_appends_all rest r1 I1) as (Hf & I2 & Q2 & T2 & C2).
  set (r2 := fst (runOps (map (fun eg => OpQueue (fst eg) (snd eg)) rest) r1))
    in *.
  rewrite Q1 in Q2. simpl in Q2. rewrite T1 in T2. rewrite C1 in C2.
  destruct (frame_continues (frameAt h done) r2 first I2 C2)
    as (r3 & f3 & S3 & V3 & I3 & Q3 & T3 & C3).
  rewrite T2 in V3, C3. simpl in V3, C3.
  rewrite easedProgress_done in V3, C3 by lra.
  destruct (Rge_dec 1 1) as [_ | ?]; [| lra].
  rewrite Q2 in Q3.
  destruct (queue_drains_from h times final r3 I3 C3) as [Hidle Hframes].
  { rewrite Q3, length_map. exact Hlen. }
  { exact Hall. }
  rewrite (runOps_cons _ _ _ _ _ S1), runOps_app. fold r2.
  rewrite (runOps_cons _ _ _ _ _ S3). cbn [fst snd].
  rewrite Hf.
  change (option_list (Some f1)) with [f1].
  change (option_list (Some f3)) with [f3].
  cbn [app map].
  change (frameView f1) with (frGate f1, frPopped f1, frProgress f1).
  change (frameView f3) with (frGate f3, frPopped f3, frProgress f3).
  rewrite V1, V3.
  split; [| exact Hidle].
  unfold frameView. rewrite Hframes, Q3. reflexivity.
Qed.

Lemma queuedGates_animateAll (h : positive) (times : list (R * R)) (final : R) :
  queuedGates (animateAll h times final) = [].
Proof.
  unfold animateAll, queuedGates. rewrite flat_map_app. simpl.
  rewrite app_nil_r. induction times as [| ab times IH]; [reflexivity |].
  simpl. exact IH.
Qed.

Lemma queuedGates_rapidSuccession (h : positive) (t0 : R) (first : AppliedGate)
    (rest : list (FrameEnv * AppliedGate)) (done : R)
    (times : list (R * R)) (final : R) :
  queuedGates (rapidSuccession h t0 first rest done times final) =
    first :: map snd rest.
Proof.
  unfold rapidSuccession.
  rewrite queuedGates_cons.
  change (queuedGates [OpQueue (frameAt h t0) first]) with [first].
  cbn [app]. f_equal.
  unfold queuedGates. rewrite flat_map_app.
  change (flat_map _ (OpFrame (frameAt h done) :: animateAll h times final))
    with (queuedGates (animateAll h times final)).
  rewrite queuedGates_animateAll, app_nil_r.
  induction rest as [| [env gate] rest IH]; [reflexivity |].
  simpl. now rewrite IH.
Qed.

(** C3: whatever is queued, run and reset, the gates are taken from the
    queue in the order in which they were queued, none is dropped or
    overtaken (the gates taken so far followed by the pending ones are the
    queued ones), every frame animates one gate, and a gate is taken from
    the queue only in the first frame or right after a frame in which the
    gate before it reached progress 1.  And the gates are processed: when
    gates are queued in rapid succession on a new renderer and each gate
    gets a frame 750 ms or more after the frame that started it, the
    frames show every gate, in the order queued, first at progress 0 and
    then at progress 1, and the queue ends [Idle]. *)
Theorem gates_animate_in_fifo_order (ops : list Op) :
  let r := fst (runOps ops newBlochRenderer) in
  let frames := snd (runOps ops newBlochRenderer) in
  poppedGates frames ++ gateQueue r = queuedGates ops /\
  oneGateAtATime None frames /\
  popsOnlyAfterCompletion frames /\
  (forall h t0 first rest done times final,
     ops = rapidSuccession h t0 first rest done times final ->
     t0 + 750 <= done ->
     length times = length rest ->
     Forall (fun ab => fst ab + 750 <= snd ab) times ->
     map frameView frames =
       flat_map (fun gate => [(gate, true, 0); (gate, false, 1)])
                (first :: map snd rest) /\
     poppedGates frames = first :: map snd rest /\
     Idle r).
Proof.
  intros r frames.
  destruct (runOps_invariants ops newBlochRenderer None) as (_ & Hone & Hfifo).
  { intros _. split; reflexivity. }
  { intros f Hf. discriminate Hf. }
  split_and!; [exact Hfifo | exact Hone | |].
  - exact (oneGateAtATime_adjacent None _ Hone).
  - intros h t0 first rest done times final Hops Hdone Hlen Hall.
    destruct (rapid_succession_run h t0 first rest done times final
                Hdone Hlen Hall) as [Hframes Hidle].
    rewrite <- Hops in Hframes, Hidle. fold r frames in Hframes, Hidle.
    split_and!; [exact Hframes | | exact Hidle].
    destruct Hidle as (_ & Hq & _). fold r frames in Hfifo.
    rewrite Hq, app_nil_r in Hfifo. rewrite Hfifo, Hops.
    apply queuedGates_rapidSuccession.
Qed.

Lemma two_gates_queued (env : FrameEnv) (g1 g2 : AppliedGate) :
  gateQueue (fst (runOps [OpQueue env g1; OpQueue env g2] newBlochRenderer)) = [g2].
Proof.
  destruct (queue_starts env newBlochRenderer g1 eq_refl eq_refl)
    as (r1 & f1 & S1 & _ & I1 & Q1 & _).
  destruct (queue_appends env r1 g2 I1) as (r2 & S2 & _ & Q2 & _).
  rewrite (runOps_cons _ _ _ _ _ S1), (runOps_cons _ _ _ _ _ S2).
  simpl. now rewrite Q2, Q1.
Qed.

End MoreProofs.

(** *** Concrete runs, on the implementation of the imports in [Model] *)

Import Model.

Example drawPath_example :
  let q := quat 0 0 0 1 in
  let store : PathStore :=
    <[0%nat := mkPathEntry q None]> (<[1%nat := mkPathEntry q (Some 7%nat)]> ∅) in
  let d := drawPath [0; 1; 0]%nat (mkDrawing store [] 8) in
  dStore d !! 0%nat = Some (mkPathEntry q (Some 8%nat)) /\
  dStore d !! 1%nat = Some (mkPathEntry q (Some 7%nat)) /\
  map meshId (dTrail d) = [8%nat] /\ dNext d = 9%nat.
Proof. cbv zeta. split_and!; reflexivity. Qed.

Lemma startingX_frame :
  exists r' frame,
    processQueue env0 startingX = (r', Some frame) /\
    frGate frame = gateX /\ frStart frame = 0 /\ frProgress frame = 0.
Proof.
  destruct (processQueue_fields env0 startingX gateX 0 [] true eq_refl)
    as (r' & frame & Hstep & Hg & _ & Hs & Ht & _).
  exists r', frame. split_and!; try assumption.
  rewrite Ht. apply easedProgress_at_start.
Qed.

Lemma animatingX_frame :
  exists r' frame, processQueue env0 animatingX = (r', Some frame).
Proof.
  destruct (processQueue_fields env0 animatingX gateX 0 [] false eq_refl)
    as (r' & frame & Hstep & _).
  now exists r', frame.
Qed.

Lemma frame_progress_is_eased_witness :
  exists r' frame,
    processQueue env0 startingX = (r', Some frame) /\
    frProgress frame = easeInOutSine ((frameTime env0 - frStart frame) / 750).
Proof.
  destruct startingX_frame as (r' & frame & Hstep & _ & Hs & _).
  exists r', frame. split; [exact Hstep |].
  destruct (frame_progress_is_eased env0 startingX r' frame Hstep) as [Hlt _].
  apply Hlt. rewrite Hs. simpl. lra.
Defined.

Lemma trail_fades_by_recency_witness :
  exists r' frame ball,
    processQueue env0 animatingX = (r', Some frame) /\
    (0 < length (trail r'))%nat /\
    trail r' !! 0%nat = Some ball /\ meshId ball = 0%nat /\
    scale ball =
      (easeOutSine (INR 1 / INR (length (trail r'))) + 1 / 2,
       easeOutSine (INR 1 / INR (length (trail r'))) + 1 / 2,
       easeOutSine (INR 1 / INR (length (trail r'))) + 1 / 2).
Proof.
  destruct animatingX_frame as (r' & frame & Hstep).
  destruct (trail_fades_by_recency env0 animatingX r' frame Hstep)
    as (markers & Hlen & Hentry & _).
  cbv zeta in Hlen, Hentry.
  destruct (Hentry 0%nat _ eq_refl) as (ball & Hball & Hid & _ & Hscale).
  exists r', frame, ball. rewrite Hlen.
  split_and!; try assumption.
  simpl. lia.
Defined.

Lemma frame_marks_exactly_the_unmarked_keyframes_witness :
  exists r' frame (markers : list Mesh),
    processQueue env0 animatingX = (r', Some frame) /\
    trail r' = fadeTrail (trail animatingX ++ markers).
Proof.
  destruct animatingX_frame as (r' & frame & Hstep).
  destruct (frame_marks_exactly_the_unmarked_keyframes
              env0 animatingX r' frame Hstep)
    as (keys & markers & _ & _ & _ & _ & Htrail & _).
  now exists r', frame, markers.
Defined.

Lemma queueGate_while_running_only_appends_witness :
  animationCallbackId animatingX <> 0%N /\
  queueGate env0 gateY animatingX =
    (mkBlochRenderer (rotations animatingX) (pathStore animatingX)
       (qubit animatingX) (trail animatingX) (nextMeshId animatingX)
       (animationCallbackId animatingX) [gateY] (Some gateX) 0,
     None).
Proof.
  assert (H : animationCallbackId animatingX <> 0%N) by discriminate.
  split; [exact H |].
  exact (queueGate_while_running_only_appends env0 gateY animatingX H).
Defined.

Lemma rotate_requests_spec_rotation_witness :
  renderer (mounted None) = Some newBlochRenderer /\
  renderer (fst (rotate env0 "X" (mounted None))) =
    Some (fst (queueGate env0 (mkGate (0, 0, 1) PI) newBlochRenderer)) /\
  renderer (fst (rotate env0 "Y" (mounted None))) =
    Some (fst (queueGate env0 (mkGate (1, 0, 0) PI) newBlochRenderer)) /\
  renderer (fst (rotate env0 "Z" (mounted None))) =
    Some (fst (queueGate env0 (mkGate (0, 1, 0) PI) newBlochRenderer)) /\
  renderer (fst (rotate env0 "H" (mounted None))) =
    Some (fst (queueGate env0
                 (mkGate (0, 1 / R_sqrt.sqrt 2, 1 / R_sqrt.sqrt 2) PI)
                 newBlochRenderer)) /\
  renderer (fst (rotate env0 "S" (mounted None))) =
    Some (fst (queueGate env0 (mkGate (0, 1, 0) (PI / 2)) newBlochRenderer)) /\
  renderer (fst (rotate env0 "T" (mounted None))) =
    Some (fst (queueGate env0 (mkGate (0, 1, 0) (PI / 4)) newBlochRenderer)).
Proof.
  split; [reflexivity |].
  destruct (@rotate_requests_spec_rotation Model.three Model.cplxjs env0
              (mounted None) newBlochRenderer eq_refl)
    as (HX & HY & HZ & HH & HS & HT).
  split_and!.
  - exact (f_equal fst HX).
  - exact (f_equal fst HY).
  - exact (f_equal fst HZ).
  - exact (f_equal fst HH).
  - exact (f_equal fst HS).
  - exact (f_equal fst HT).
Defined.

Lemma gates_animate_in_fifo_order_witness :
  let ops :=
    rapidSuccession 1 0 gateX [(env0, gateY); (env750, gateZ)] 750
      [(760, 1510); (1520, 2270)] 2280 in
  map frameView (snd (runOps ops newBlochRenderer)) =
    [(gateX, true, 0); (gateX, false, 1); (gateY, true, 0);
     (gateY, false, 1); (gateZ, true, 0); (gateZ, false, 1)] /\
  poppedGates (snd (runOps ops newBlochRenderer)) = [gateX; gateY; gateZ] /\
  Idle (fst (runOps ops newBlochRenderer)).
Proof.
  intros ops.
  destruct (@gates_animate_in_fifo_order Model.three Model.cplxjs ops)
    as (_ & _ & _ & Hprocessed).
  apply (Hprocessed 1%positive 0 gateX [(env0, gateY); (env750, gateZ)] 750
           [(760, 1510); (1520, 2270)] 2280).
  - reflexivity.
  - lra.
  - reflexivity.
  - repeat constructor; simpl; lra.
Defined.

Lemma not_recognized_Q : ~ recognized "Q".
Proof.
  unfold recognized. simpl. intros H.
  repeat (destruct H as [H | H]; [discriminate H |]). exact H.
Qed.

Lemma rotate_unknown_gate_changes_only_the_names_witness :
  renderer (mounted None) = Some newBlochRenderer /\
  ~ recognized "Q" /\
  errors (snd (rotate env0 "Q" (mounted None))) = ["Unknown gate: Q"%string] /\
  state (fst (rotate env0 "Q" (mounted None))) = Ket0 /\
  gates (fst (rotate env0 "Q" (mounted None))) = ["Q"%string].
Proof.
  split; [reflexivity |]. split; [exact not_recognized_Q |].
  destruct (@rotate_unknown_gate_changes_only_the_names Model.three
              Model.cplxjs env0 "Q" (mounted None) newBlochRenderer eq_refl
              not_recognized_Q)
    as (He & _ & Hs & _ & _ & Hg).
  split_and!; assumption.
Defined.

(** C2 as the spec states it fails: [rotate] with the unknown name [Q] on
    the freshly mounted component changes the gate-name history. *)
Lemma unknown_gate_is_not_a_noop :
  ~ unknownGateIsNoop env0 "Q" (mounted None).
Proof.
  unfold unknownGateIsNoop.
  rewrite (rotate_unknown env0 "Q" (mounted None) newBlochRenderer eq_refl
             not_recognized_Q).
  intros (_ & _ & H & _). discriminate H.
Qed.


Lemma frame_ends_gate_after_750ms_witness :
  currentGate animatingX = Some gateX /\
  startTime animatingX + 750 <= frameTime env750 /\
  exists r' frame,
    processQueue env750 animatingX = (r', Some frame) /\
    frProgress frame = 1 /\ currentGate r' = None.
Proof.
  assert (Hs : startTime animatingX + 750 <= frameTime env750) by (simpl; lra).
  split; [reflexivity |]. split; [exact Hs |].
  destruct (frame_ends_gate_after_750ms env750 animatingX gateX eq_refl Hs)
    as (r' & frame & Hstep & _ & _ & Ht & Hc & _).
  now exists r', frame.
Defined.

Lemma frame_leaves_markers_visible_witness :
  exists r' frame ball size,
    processQueue env0 animatingX = (r', Some frame) /\
    trail r' !! 0%nat = Some ball /\
    scale ball = (size, size, size) /\ 1 / 2 < size <= 3 / 2.
Proof.
  destruct animatingX_frame as (r' & frame & Hstep).
  assert (Hball : exists ball, trail r' !! 0%nat = Some ball).
  { destruct (processQueue_frame_result _ _ _ _ Hstep) as (_ & -> & _).
    match goal with |- context [drawPath ?path ?d] =>
      destruct (drawPath_spec path d) as (_ & markers & _ & _ & _ & _ & -> & _)
    end.
    eexists. reflexivity. }
  destruct Hball as [ball Hball].
  destruct (frame_leaves_markers_visible env0 animatingX r' frame 0 ball
              Hstep Hball) as (size & Hsc & Hsz & _).
  now exists r', frame, ball, size.
Defined.

Lemma queueGate_on_idle_starts_the_gate_witness :
  Idle newBlochRenderer /\
  exists r' frame,
    queueGate env0 gateX newBlochRenderer = (r', Some frame) /\
    frGate frame = gateX /\ gateQueue r' = [].
Proof.
  assert (Hidle : Idle newBlochRenderer) by (repeat split).
  split; [exact Hidle |].
  destruct (@queueGate_on_idle_starts_the_gate Model.three Model.cplxjs
              env0 gateX newBlochRenderer Hidle)
    as (r' & frame & Hq & Hg & _ & _ & _ & Hqueue & _).
  now exists r', frame.
Defined.

Lemma frame_on_empty_queue_goes_idle_witness :
  animationCallbackId finishedX <> 0%N /\
  currentGate finishedX = None /\ gateQueue finishedX = [] /\
  Idle (fst (animationFrame env750 finishedX)).
Proof.
  assert (Hid : animationCallbackId finishedX <> 0%N) by discriminate.
  split; [exact Hid |]. split; [reflexivity |]. split; [reflexivity |].
  exact (proj2 (frame_on_empty_queue_goes_idle env750 finishedX Hid
                  eq_refl eq_refl)).
Defined.

Lemma pending_work_has_a_frame_scheduled_witness :
  let r := fst (runOps [OpQueue env0 gateX; OpQueue env0 gateY]
                  newBlochRenderer) in
  gateQueue r <> [] /\ animationCallbackId r <> 0%N.
Proof.
  intros r.
  assert (Hq : gateQueue r <> []).
  { subst r. rewrite two_gates_queued. discriminate. }
  split; [exact Hq |].
  exact (pending_work_has_a_frame_scheduled _ (or_introl Hq)).
Defined.

Lemma trail_grows_until_reset_witness :
  exists r' frame added,
    stepOp (OpFrame env0) animatingX = (r', frame) /\
    map placed (trail r') = map placed (trail animatingX) ++ added.
Proof.
  destruct (stepOp (OpFrame env0) animatingX) as [r' frame] eqn:H.
  destruct (trail_grows_until_reset (OpFrame env0) animatingX r' frame H)
    as [added Ha].
  now exists r', frame, added.
Defined.

Lemma queue_drains_witness :
  let times := [(1000, 1750); (1766, 2600)] in
  animationCallbackId pendingXY <> 0%N /\ currentGate pendingXY = None /\
  length times = length (gateQueue pendingXY) /\
  Forall (fun ab => fst ab + 750 <= snd ab) times /\
  Idle (fst (runOps (animateAll 1 times 2616) pendingXY)).
Proof.
  intros times.
  assert (H1 : animationCallbackId pendingXY <> 0%N) by discriminate.
  assert (H2 : Forall (fun ab => fst ab + 750 <= snd ab) times).
  { repeat constructor; simpl; lra. }
  split; [exact H1 |]. split; [reflexivity |]. split; [reflexivity |].
  split; [exact H2 |].
  exact (proj1 (queue_drains 1 times 2616 pendingXY H1 eq_refl eq_refl H2)).
Defined.

(** A run of the component: an unknown name and a reset in the middle. *)
Example histories_example :
  let c := runEvents [EvRotate env0 "X"; EvReset; EvRotate env0 "H";
                      EvRotate env0 "Q"; EvFrame env750; EvRotate env750 "T"]
             (mounted (Some ["Z"]%string)) in
  gates c = ["H"; "Q"; "T"]%string /\ length (gateArray c) = 2%nat.
Proof.
  intros c. subst c. split.
  - now rewrite gates_of_run.
  - now rewrite gateArray_of_run.
Qed.

End BlochSpec.
